(** * Nuesicgen: the melody generator, the player and the MIDI stub

    A shallow embedding of [musicUtils.ts] (two revisions of the file,
    called [Part000] and [Part001] below), of [MIDIVisualizer] and of the
    handlers of [MusicGenerator], with the properties stated in the
    specification and further properties of the code.

    - JavaScript numbers are IEEE 754 binary64 values.  They are
      modelled as rationals on which every arithmetic operation rounds
      its exact result to 53 significant bits, ties to even
      ([Binary64.rnd]), with [NaN] and the two infinities as separate
      values.  The exponent range is not bounded: overflow to an infinity
      and gradual underflow are outside the model, and so is the sign of
      zero.  The rounding is compared with the kernel's floats on closed
      terms.
    - [Math.random] reads a stream of draws, [rand : nat -> Q], and the
      generator counts the draws it has made.
    - The three tables are object literals: a lookup that finds no own
      property goes on to [Object.prototype].
    - A function that can throw returns a [JS.completion]; [playMIDI]
      returns the list of its effects on the browser as well.
    - [downloadMIDI] runs on a small model of the page: the children of
      [document.body], the live object URLs and the downloads started.
    - The component is its state together with what its handlers leave
      pending; the canvas drawing of [WaveformVisualizer] is not
      modelled. *)

From Stdlib Require Import ZArith QArith Qround Qabs Qpower Qreduction.
From Stdlib Require Import List String Ascii Bool Lia Lqa.
From Stdlib Require Import PrimFloat FloatOps SpecFloat Uint63.
From Stdlib Require Qcanon.
Import ListNotations.
Open Scope Q_scope.

(** ** Rounding to binary64 *)

Module Binary64.

(** [ilog2 x] is the integer [k] with [2^k <= x < 2^(k+1)], for [0 < x]. *)
Definition ilog2 (x : Q) : Z :=
  let k := (Z.log2 (Qnum x) - Z.log2 (Zpos (Qden x)))%Z in
  if Qle_bool (2 ^ k) x then k else (k - 1)%Z.

(** Nearest integer, ties to the even one. *)
Definition rne (m : Q) : Z :=
  let f := Qfloor m in
  match Qcompare (m - inject_Z f) (1 # 2) with
  | Lt => f
  | Gt => (f + 1)%Z
  | Eq => if Z.even f then f else (f + 1)%Z
  end.

(** A positive number is scaled so that its integer part has 53 bits,
    rounded to an integer and scaled back. *)
Definition round_pos (x : Q) : Q :=
  let e := (ilog2 x - 52)%Z in
  inject_Z (rne (x / 2 ^ e)) * 2 ^ e.

Definition rnd (x : Q) : Q :=
  Qred (match Qcompare x 0 with
        | Eq => 0
        | Gt => round_pos x
        | Lt => - round_pos (- x)
        end).

(** The value of a kernel float, to compare [rnd] with the hardware
    arithmetic on closed terms. *)
Definition SF2Q (f : spec_float) : option Q :=
  match f with
  | S754_zero _ => Some 0
  | S754_finite s m e =>
      let v := inject_Z (Zpos m) * 2 ^ e in
      Some (Qred (if s then - v else v))
  | S754_infinity _ | S754_nan => None
  end.

Definition Prim2Q (f : float) : option Q := SF2Q (Prim2SF f).

(** [rnd] of the exact result of an operation against the result of the
    kernel's operation on the same two floats. *)
Definition agrees (opf : float -> float -> float) (opq : Q -> Q -> Q) (a b : float) : bool :=
  match Prim2Q a, Prim2Q b, Prim2Q (opf a b) with
  | Some x, Some y, Some z => Qeq_bool (rnd (opq x y)) z
  | _, _, _ => false
  end.

(** A pseudo-random list of floats: 53-bit mantissas, exponents from -92
    to -13, both signs. *)
Fixpoint samples (n : nat) (seed : Z) : list float :=
  match n with
  | O => []
  | S n' =>
      let s1 := ((seed * 6364136223846793005 + 1442695040888963407) mod 2 ^ 64)%Z in
      let s2 := ((s1 * 6364136223846793005 + 1442695040888963407) mod 2 ^ 64)%Z in
      let m := ((s1 / 2 ^ 11) mod 2 ^ 53)%Z in
      let e := ((s2 / 2 ^ 40) mod 80 - 92)%Z in
      let f := Z.ldexp (of_uint63 (Uint63.of_Z m)) e in
      (if Z.odd (s2 / 2 ^ 20) then PrimFloat.opp f else f) :: samples n' s2
  end.

Fixpoint adjacent_pairs (l : list float) : list (float * float) :=
  match l with
  | a :: ((b :: _) as rest) => (a, b) :: adjacent_pairs rest
  | _ => []
  end.

Definition agrees_on (l : list float) : bool :=
  forallb (fun p => agrees PrimFloat.add Qplus (fst p) (snd p)
                    && agrees PrimFloat.sub Qminus (fst p) (snd p)
                    && agrees PrimFloat.mul Qmult (fst p) (snd p)
                    && agrees PrimFloat.div Qdiv (fst p) (snd p))
          (adjacent_pairs l).

End Binary64.

(** ** The fragment of JavaScript the module uses *)

Module JS.

Import Binary64.

Inductive number : Type :=
| Num (q : Q)
| Infinity (negative : bool)
| NaN.

(** A numeric literal of the source text. *)
Definition lit (q : Q) : number := Num (rnd q).

Definition Qlt_bool (x y : Q) : bool := negb (Qle_bool y x).

Definition add (a b : number) : number :=
  match a, b with
  | NaN, _ | _, NaN => NaN
  | Num x, Num y => Num (rnd (x + y))
  | Infinity s, Infinity t => if Bool.eqb s t then Infinity s else NaN
  | Infinity s, Num _ | Num _, Infinity s => Infinity s
  end.

Definition sub (a b : number) : number :=
  match a, b with
  | NaN, _ | _, NaN => NaN
  | Num x, Num y => Num (rnd (x - y))
  | Infinity s, Infinity t => if Bool.eqb s t then NaN else Infinity s
  | Infinity s, Num _ => Infinity s
  | Num _, Infinity s => Infinity (negb s)
  end.

Definition mul (a b : number) : number :=
  match a, b with
  | NaN, _ | _, NaN => NaN
  | Num x, Num y => Num (rnd (x * y))
  | Infinity s, Infinity t => Infinity (xorb s t)
  | Infinity s, Num y | Num y, Infinity s =>
      if Qeq_bool y 0 then NaN else Infinity (xorb s (Qlt_bool y 0))
  end.

Definition div (a b : number) : number :=
  match a, b with
  | NaN, _ | _, NaN => NaN
  | Num x, Num y =>
      if Qeq_bool y 0
      then (if Qeq_bool x 0 then NaN else Infinity (Qlt_bool x 0))
      else Num (rnd (x / y))
  | Infinity _, Infinity _ => NaN
  | Infinity s, Num y => Infinity (xorb s (Qlt_bool y 0))
  | Num _, Infinity _ => Num 0
  end.

Definition Math_floor (a : number) : number :=
  match a with
  | Num x => Num (inject_Z (Qfloor x))
  | _ => a
  end.

Definition Math_max (a b : number) : number :=
  match a, b with
  | NaN, _ | _, NaN => NaN
  | Num x, Num y => if Qlt_bool x y then b else a
  | Infinity false, _ | _, Infinity false => Infinity false
  | Infinity true, _ => b
  | _, Infinity true => a
  end.

Definition Math_min (a b : number) : number :=
  match a, b with
  | NaN, _ | _, NaN => NaN
  | Num x, Num y => if Qlt_bool y x then b else a
  | Infinity true, _ | _, Infinity true => Infinity true
  | Infinity false, _ => b
  | _, Infinity false => a
  end.

(** [Math.max(...xs)]: the maximum of no argument is [-Infinity]. *)
Definition Math_max_list (xs : list number) : number :=
  fold_left Math_max xs (Infinity true).

(** [a < b], [a > b], [a <= b], [a >= b] and [a === b] on numbers. *)
Definition ltb (a b : number) : bool :=
  match a, b with
  | NaN, _ | _, NaN => false
  | Num x, Num y => Qlt_bool x y
  | Infinity s, Infinity t => s && negb t
  | Infinity s, Num _ => s
  | Num _, Infinity t => negb t
  end.

Definition gtb (a b : number) : bool := ltb b a.

Definition leb (a b : number) : bool :=
  match a, b with
  | NaN, _ | _, NaN => false
  | Num x, Num y => Qle_bool x y
  | Infinity s, Infinity t => s || negb t
  | Infinity s, Num _ => s
  | Num _, Infinity t => negb t
  end.

Definition geb (a b : number) : bool := leb b a.

Definition strict_eq (a b : number) : bool :=
  match a, b with
  | Num x, Num y => Qeq_bool x y
  | Infinity s, Infinity t => Bool.eqb s t
  | _, _ => false
  end.

(** Abrupt completion: the only exception the module can raise on its
    own is a [TypeError] (a call or a property read on a value that has
    no such member); a typed array raises [RangeError] when [set] is
    called out of bounds. *)
Inductive Error : Type := TypeError | RangeError.

Inductive completion (A : Type) : Type :=
| Normal (a : A)
| Throw (e : Error).
Arguments Normal {A} a.
Arguments Throw {A} e.

Definition bind {A B : Type} (c : completion A) (k : A -> completion B) : completion B :=
  match c with
  | Normal a => k a
  | Throw e => Throw e
  end.

Notation "x <- c ;; k" := (bind c (fun x => k))
  (at level 61, c at next level, right associativity).

(** *** Object literals used as lookup tables

    [scalePatterns], [genreSettings] and [typeMap] are object literals,
    so a lookup [table[k]] that finds no own property goes on to
    [Object.prototype].  The members found there are functions (with
    their [length]) and, under [__proto__], [Object.prototype] itself. *)
Inductive member : Type :=
| BuiltinFunction (name : string) (length : Z)
| ObjectPrototype.

Inductive value (A : Type) : Type :=
| Own (a : A)
| Inherited (m : member)
| Undefined.
Arguments Own {A} a.
Arguments Inherited {A} m.
Arguments Undefined {A}.

Definition Object_prototype : list (string * member) :=
  [ ("constructor", BuiltinFunction "Object" 1);
    ("hasOwnProperty", BuiltinFunction "hasOwnProperty" 1);
    ("isPrototypeOf", BuiltinFunction "isPrototypeOf" 1);
    ("propertyIsEnumerable", BuiltinFunction "propertyIsEnumerable" 1);
    ("toLocaleString", BuiltinFunction "toLocaleString" 0);
    ("toString", BuiltinFunction "toString" 0);
    ("valueOf", BuiltinFunction "valueOf" 0);
    ("__defineGetter__", BuiltinFunction "__defineGetter__" 2);
    ("__defineSetter__", BuiltinFunction "__defineSetter__" 2);
    ("__lookupGetter__", BuiltinFunction "__lookupGetter__" 1);
    ("__lookupSetter__", BuiltinFunction "__lookupSetter__" 1);
    ("__proto__", ObjectPrototype) ]%string.

Fixpoint assoc {A : Type} (l : list (string * A)) (k : string) : option A :=
  match l with
  | [] => None
  | (k', v) :: rest => if String.eqb k k' then Some v else assoc rest k
  end.

(** [table[k]] *)
Definition get {A : Type} (table : list (string * A)) (k : string) : value A :=
  match assoc table k with
  | Some v => Own v
  | None =>
      match assoc Object_prototype k with
      | Some m => Inherited m
      | None => Undefined
      end
  end.

(** [a || b]: objects, arrays, functions and non-empty strings are
    truthy, [undefined] is falsy. *)
Definition or_else {A : Type} (a b : value A) : value A :=
  match a with
  | Undefined => b
  | _ => a
  end.

(** A number or [undefined], as an array read returns it. *)
Definition ToNumber (v : option number) : number :=
  match v with
  | Some n => n
  | None => NaN
  end.

(** [x === y] where either side may be [undefined]. *)
Definition strict_equals (x y : option number) : bool :=
  match x, y with
  | Some a, Some b => strict_eq a b
  | None, None => true
  | _, _ => false
  end.

(** *** Arrays of numbers *)

(** [arr.length] on whatever [scalePatterns[key] || ...] returned. *)
Definition length_of (arr : value (list number)) : completion (option number) :=
  match arr with
  | Own l => Normal (Some (Num (inject_Z (Z.of_nat (List.length l)))))
  | Inherited (BuiltinFunction _ n) => Normal (Some (Num (inject_Z n)))
  | Inherited ObjectPrototype => Normal None
  | Undefined => Throw TypeError
  end.

Definition is_index (q : Q) : bool :=
  Qle_bool 0 q && Qeq_bool q (inject_Z (Qfloor q)).

(** [l[i]] on an array: an element for an integral index in range,
    [undefined] otherwise. *)
Definition Array_at (l : list number) (i : number) : option number :=
  match i with
  | Num q => if is_index q then nth_error l (Z.to_nat (Qfloor q)) else None
  | _ => None
  end.

(** [arr[i]]; the inherited members have no indexed property. *)
Definition at_index (arr : value (list number)) (i : number) : completion (option number) :=
  match arr with
  | Own l => Normal (Array_at l i)
  | Inherited _ => Normal None
  | Undefined => Throw TypeError
  end.

Fixpoint find_from (l : list number) (x : option number) (i : Z) : Z :=
  match l with
  | [] => (-1)%Z
  | y :: rest => if strict_equals (Some y) x then i else find_from rest x (i + 1)%Z
  end.

(** [arr.indexOf(x)]: only an array has the method, calling it on an
    inherited member is a call of [undefined]. *)
Definition indexOf (arr : value (list number)) (x : option number) : completion number :=
  match arr with
  | Own l => Normal (Num (inject_Z (find_from l x 0)))
  | Inherited _ => Throw TypeError
  | Undefined => Throw TypeError
  end.

(** [Math.random()]: the draws are read off a stream, [i] is the number
    of draws made so far. *)
Definition Math_random (rand : nat -> Q) (i : nat) : number := Num (rand i).

(** *** [Uint8Array] *)

Definition Uint8Array_new (n : nat) : list Byte.byte := repeat Byte.x00 n.

(** [dst.set(src, offset)] *)
Definition Uint8Array_set (dst src : list Byte.byte) (offset : nat) : completion (list Byte.byte) :=
  if (offset + List.length src <=? List.length dst)%nat
  then Normal (firstn offset dst ++ src ++ skipn (offset + List.length src) dst)
  else Throw RangeError.

(** *** Operators the components use *)

(** The integer part of a quotient, rounded towards zero. *)
Definition Qtruncate (x : Q) : Z := if Qle_bool 0 x then Qfloor x else Qceiling x.

(** [a % b]: the remainder takes the sign of the dividend and is exact. *)
Definition rem (a b : number) : number :=
  match a, b with
  | Num x, Num y =>
      if Qeq_bool y 0 then NaN else Num (rnd (x - y * inject_Z (Qtruncate (x / y))))
  | Num _, Infinity _ => a
  | _, _ => NaN
  end.

(** [Math.round]: the nearest integer, a half going up. *)
Definition Math_round (a : number) : number :=
  match a with
  | Num x => Num (inject_Z (Qfloor (x + (1 # 2))))
  | _ => a
  end.

(** [arr[i]] on an array literal of any element type. *)
Definition Array_get {A : Type} (l : list A) (i : number) : option A :=
  match i with
  | Num q => if is_index q then nth_error l (Z.to_nat (Qfloor q)) else None
  | _ => None
  end.

End JS.

(** ** The interfaces of [musicUtils.ts]

    TypeScript declares [creativity], [tempo] and [duration] as
    [number].  [duration] counts bars and [tempo] beats per minute, and
    both are taken to be integers here; [duration * 4] and the loop
    counter are then exact (below [2^53], far more notes than memory
    holds).  [creativity] is taken to be a finite number. *)

Module GenerationParams.
Record t : Type := {
  genre : string;
  creativity : Q;
  tempo : Z;
  key : string;
  duration : Z
}.
End GenerationParams.

Module Note.
Record t : Type := {
  pitch : JS.number;
  duration : JS.number;
  velocity : JS.number;
  time : JS.number
}.
End Note.

Module Melody.
Record t : Type := {
  notes : list Note.t;
  tempo : Z;
  key : string;
  genre : string
}.
End Melody.

(** The promise [generateMelody] returns: it settles [delay] milliseconds
    after the call, with a melody or with the exception the body raised. *)
Record Generation : Type := {
  delay : JS.number;
  outcome : JS.completion Melody.t
}.

(** The entries of [genreSettings]. *)
Record Settings : Type := {
  jumpRange : JS.number;
  rhythmVariety : JS.number
}.

(** [o.f] for a field [f] of the entries of a table: no inherited member
    has such a property. *)
Definition field {A : Type} (f : A -> JS.number) (o : JS.value A) : JS.completion (option JS.number) :=
  match o with
  | JS.Own a => JS.Normal (Some (f a))
  | JS.Inherited _ => JS.Normal None
  | JS.Undefined => JS.Throw JS.TypeError
  end.

(** The state of the [for] loop of [generateMelody]; [draws] counts the
    calls of [Math.random] made so far. *)
Record LoopState : Type := {
  notes : list Note.t;
  currentTime : JS.number;
  lastPitch : option JS.number;
  draws : nat
}.

(** *** What [playMIDI] does to the browser *)

Inductive GainEvent : Type :=
| setValueAtTime (v t : JS.number)
| linearRampToValueAtTime (v t : JS.number)
| exponentialRampToValueAtTime (v t : JS.number).

(** One oscillator with its gain node. *)
Record Voice : Type := {
  frequency : JS.number * JS.number;
  type : JS.value string;
  gain : list GainEvent;
  start : JS.number;
  stop : JS.number
}.

Inductive LogMessage : Type :=
| StartingPlayback (noteCount : nat)
| NotePlayed (index : JS.number) (pitch frequency startTime : JS.number)
| PlaybackFinished
| PlaybackError.

(** What a timer runs when it fires; a voice started from a timer reads
    the clock of the audio context at that moment. *)
Inductive Callback : Type :=
| LogMessageLater (m : LogMessage)
| StartVoice (voice : JS.number -> Voice).

Inductive Effect : Type :=
| NewAudioContext
| Resume
| MasterGain (e : GainEvent)
| Schedule (v : Voice)
| SetTimeout (callback : Callback) (ms : JS.number)
| ConsoleLog (m : LogMessage)
| ConsoleError (m : LogMessage).

(** The audio element handed to [playMIDI]; only its presence is read. *)
Inductive HTMLAudioElement : Type := AudioElement.

(** The part of the browser [playMIDI] reads: whether [window] has an
    [AudioContext] constructor, the state and the clock of the context it
    builds, and [Math.pow]. *)
Record Browser : Type := {
  hasAudioContext : bool;
  suspended : bool;
  now : JS.number;
  Math_pow : JS.number -> JS.number -> JS.number
}.

(** *** What [downloadMIDI] does to the page

    Nodes and object URLs are named by the order in which the page made
    them.  The page keeps the children of [document.body], the blobs its
    live object URLs stand for, and the downloads it has started: the
    file name and what the link resolved to. *)

Record Blob : Type := {
  content : list Byte.byte;
  mimeType : string
}.

Record Page : Type := {
  body : list nat;
  created : nat;
  objectURLs : list (nat * Blob);
  issued : nat;
  downloads : list (string * option Blob)
}.

(** An [<a>] element with the two attributes [downloadMIDI] sets. *)
Record Anchor : Type := {
  node : nat;
  href : option nat;
  download : option string
}.

Module DOM.

(** A script error, or the [NotFoundError] of [removeChild]. *)
Inductive Exception : Type :=
| ScriptError (e : JS.Error)
| NotFoundError.

Inductive result (A : Type) : Type :=
| Returns (a : A)
| Throws (e : Exception).
Arguments Returns {A} a.
Arguments Throws {A} e.

(** A statement that reads and changes the page and may throw. *)
Definition M (A : Type) : Type := Page -> Page * result A.

Definition ret {A : Type} (a : A) : M A := fun pg => (pg, Returns a).

Definition bind {A B : Type} (c : M A) (k : A -> M B) : M B :=
  fun pg =>
    match c pg with
    | (pg', Returns a) => k a pg'
    | (pg', Throws e) => (pg', Throws e)
    end.

Notation "x <~ c ;; k" := (bind c (fun x => k))
  (at level 61, c at next level, right associativity).

Definition lift {A : Type} (c : JS.completion A) : M A :=
  fun pg =>
    match c with
    | JS.Normal a => (pg, Returns a)
    | JS.Throw e => (pg, Throws (ScriptError e))
    end.

Fixpoint lookup (l : list (nat * Blob)) (url : nat) : option Blob :=
  match l with
  | [] => None
  | (u, b) :: rest => if Nat.eqb url u then Some b else lookup rest url
  end.

(** [URL.createObjectURL(blob)] *)
Definition createObjectURL (blob : Blob) : M nat :=
  fun pg =>
    ({| body := body pg;
        created := created pg;
        objectURLs := (issued pg, blob) :: objectURLs pg;
        issued := S (issued pg);
        downloads := downloads pg |},
     Returns (issued pg)).

(** [URL.revokeObjectURL(url)] *)
Definition revokeObjectURL (url : nat) : M unit :=
  fun pg =>
    ({| body := body pg;
        created := created pg;
        objectURLs := filter (fun e => negb (Nat.eqb (fst e) url)) (objectURLs pg);
        issued := issued pg;
        downloads := downloads pg |},
     Returns tt).

(** [document.createElement('a')] *)
Definition createElement : M Anchor :=
  fun pg =>
    ({| body := body pg;
        created := S (created pg);
        objectURLs := objectURLs pg;
        issued := issued pg;
        downloads := downloads pg |},
     Returns {| node := created pg; href := None; download := None |}).

Fixpoint without (n : nat) (l : list nat) : list nat :=
  match l with
  | [] => []
  | m :: rest => if Nat.eqb m n then rest else m :: without n rest
  end.

(** [document.body.appendChild(a)]: a node already in the tree moves to
    the end. *)
Definition appendChild (a : Anchor) : M unit :=
  fun pg =>
    ({| body := without (node a) (body pg) ++ [node a];
        created := created pg;
        objectURLs := objectURLs pg;
        issued := issued pg;
        downloads := downloads pg |},
     Returns tt).

(** [document.body.removeChild(a)] *)
Definition removeChild (a : Anchor) : M unit :=
  fun pg =>
    if existsb (Nat.eqb (node a)) (body pg)
    then ({| body := without (node a) (body pg);
             created := created pg;
             objectURLs := objectURLs pg;
             issued := issued pg;
             downloads := downloads pg |},
          Returns tt)
    else (pg, Throws NotFoundError).

(** [a.click()]: a link with both attributes starts a download of what
    its address stands for at that moment; any other link leaves the
    record of downloads as it is. *)
Definition click (a : Anchor) : M unit :=
  fun pg =>
    match href a, download a with
    | Some url, Some filename =>
        ({| body := body pg;
            created := created pg;
            objectURLs := objectURLs pg;
            issued := issued pg;
            downloads := downloads pg ++ [(filename, lookup (objectURLs pg) url)] |},
         Returns tt)
    | _, _ => (pg, Returns tt)
    end.

End DOM.

(** ** First revision of [musicUtils.ts] *)

Module Part000.

Import JS.
Import DOM.

Definition scalePatterns : list (string * list number) :=
  [ ("C",  map lit [60; 62; 64; 65; 67; 69; 71; 72]);
    ("G",  map lit [67; 69; 71; 72; 74; 76; 78; 79]);
    ("D",  map lit [62; 64; 66; 67; 69; 71; 73; 74]);
    ("A",  map lit [69; 71; 73; 74; 76; 78; 80; 81]);
    ("Am", map lit [69; 71; 72; 74; 76; 77; 79; 81]);
    ("Em", map lit [64; 66; 67; 69; 71; 72; 74; 76]);
    ("Dm", map lit [62; 64; 65; 67; 69; 70; 72; 74]) ]%string.

Definition genreSettings : list (string * Settings) :=
  [ ("classical",  {| jumpRange := lit 3; rhythmVariety := lit 0.3 |});
    ("jazz",       {| jumpRange := lit 5; rhythmVariety := lit 0.7 |});
    ("electronic", {| jumpRange := lit 6; rhythmVariety := lit 0.8 |});
    ("ambient",    {| jumpRange := lit 2; rhythmVariety := lit 0.2 |});
    ("minimalist", {| jumpRange := lit 1; rhythmVariety := lit 0.1 |});
    ("baroque",    {| jumpRange := lit 4; rhythmVariety := lit 0.4 |}) ]%string.

(** The body of the [for] loop. *)
Definition iteration (scale : value (list number)) (settings : value Settings)
    (creativity : number) (rand : nat -> Q) (st : LoopState) : completion LoopState :=
  let i := draws st in
  jr <- field jumpRange settings ;;
  let pitchVariation :=
    Math_floor (mul (mul (mul (sub (Math_random rand i) (lit 0.5)) (lit 2)) (ToNumber jr))
                    creativity) in
  found <- indexOf scale (lastPitch st) ;;
  let scaleIndex := if strict_eq found (lit (-1)) then lit 0 else found in
  len <- length_of scale ;;
  let scaleIndex :=
    Math_max (lit 0) (Math_min (sub (ToNumber len) (lit 1)) (add scaleIndex pitchVariation)) in
  degree <- at_index scale scaleIndex ;;
  let pitch :=
    add (ToNumber degree)
        (if gtb (Math_random rand (i + 1)) (lit 0.8) then lit 12 else lit 0) in
  let baseDuration := lit 0.25 in
  rv <- field rhythmVariety settings ;;
  let rhythmFactor :=
    add (lit 1) (mul (mul (sub (Math_random rand (i + 2)) (lit 0.5)) (ToNumber rv)) creativity) in
  let duration := Math_max (lit 0.125) (mul baseDuration rhythmFactor) in
  let velocity := add (lit 60) (mul (mul (Math_random rand (i + 3)) (lit 40)) creativity) in
  Normal {| notes := notes st ++
                     [ {| Note.pitch := pitch;
                          Note.duration := duration;
                          Note.velocity := Math_floor velocity;
                          Note.time := currentTime st |} ];
            currentTime := add (currentTime st) duration;
            lastPitch := Some pitch;
            draws := i + 4 |}.

(** [for (let i = 0; i < noteCount; i++)], [n] iterations to go. *)
Fixpoint loop (n : nat) (scale : value (list number)) (settings : value Settings)
    (creativity : number) (rand : nat -> Q) (st : LoopState) : completion LoopState :=
  match n with
  | O => Normal st
  | S n' =>
      st' <- iteration scale settings creativity rand st ;;
      loop n' scale settings creativity rand st'
  end.

Definition generateMelody (params : GenerationParams.t) (rand : nat -> Q) : Generation :=
  {| delay := add (lit 2000) (mul (Math_random rand 0) (lit 2000));
     outcome :=
       let genre := GenerationParams.genre params in
       let creativity := Num (GenerationParams.creativity params) in
       let tempo := GenerationParams.tempo params in
       let key := GenerationParams.key params in
       let duration := GenerationParams.duration params in
       let noteCount := (duration * 4)%Z in
       let scale := or_else (get scalePatterns key) (get scalePatterns "C") in
       let settings := or_else (get genreSettings genre) (get genreSettings "classical") in
       let currentTime := lit 0 in
       len <- length_of scale ;;
       lastPitch <- at_index scale (Math_floor (div (ToNumber len) (lit 2))) ;;
       st <- loop (Z.to_nat noteCount) scale settings creativity rand
               {| notes := []; currentTime := currentTime; lastPitch := lastPitch; draws := 1 |} ;;
       Normal {| Melody.notes := notes st;
                 Melody.tempo := tempo;
                 Melody.key := key;
                 Melody.genre := genre |} |}.

Definition typeMap : list (string * string) :=
  [ ("classical", "sine"); ("jazz", "triangle"); ("electronic", "square");
    ("ambient", "sine"); ("minimalist", "sine"); ("baroque", "triangle") ]%string.

Definition getOscillatorType (genre : string) : value string :=
  or_else (get typeMap genre) (Own "sine"%string).

(** One pass of [melody.notes.forEach]: the oscillator of a note and the
    line logged for it. *)
Definition playNote (w : Browser) (melody : Melody.t) (note : Note.t) (index : nat) : list Effect :=
  let startTime := add (now w) (mul (Note.time note) (lit 0.5)) in
  let frequency :=
    mul (lit 440) (Math_pow w (lit 2) (div (sub (Note.pitch note) (lit 69)) (lit 12))) in
  let noteDuration := mul (Note.duration note) (lit 0.5) in
  let velocity := div (Note.velocity note) (lit 127) in
  let volume := mul velocity (lit 0.5) in
  [ Schedule {| frequency := (frequency, startTime);
                type := getOscillatorType (Melody.genre melody);
                gain := [ setValueAtTime (lit 0) startTime;
                          linearRampToValueAtTime volume (add startTime (lit 0.01));
                          setValueAtTime volume (add startTime (mul noteDuration (lit 0.8)));
                          exponentialRampToValueAtTime (lit 0.001) (add startTime noteDuration) ];
                start := startTime;
                stop := add startTime noteDuration |};
    ConsoleLog (NotePlayed (add (Num (inject_Z (Z.of_nat index))) (lit 1))
                           (Note.pitch note) frequency startTime) ].

Fixpoint forEach (f : Note.t -> nat -> list Effect) (l : list Note.t) (index : nat) : list Effect :=
  match l with
  | [] => []
  | note :: rest => f note index ++ forEach f rest (S index)
  end.

(** [playMIDI]: the effects on the browser, in order, and how the promise
    settles.  The calls into Web Audio are taken to return normally. *)
Definition playMIDI (w : Browser) (melody : Melody.t) (audioElement : option HTMLAudioElement)
    : list Effect * completion unit :=
  match audioElement with
  | None => ([], Normal tt)
  | Some _ =>
      if hasAudioContext w then
        let totalDuration :=
          mul (Math_max_list
                 (map (fun note => add (Note.time note) (Note.duration note)) (Melody.notes melody)))
              (lit 0.5) in
        ([NewAudioContext] ++
         (if suspended w then [Resume] else []) ++
         [ConsoleLog (StartingPlayback (List.length (Melody.notes melody)));
          MasterGain (setValueAtTime (lit 0.3) (now w))] ++
         forEach (playNote w melody) (Melody.notes melody) 0 ++
         [SetTimeout (LogMessageLater PlaybackFinished)
                     (add (mul totalDuration (lit 1000)) (lit 1000))],
         Normal tt)
      else ([ConsoleError PlaybackError], Throw TypeError)
  end.

Definition createSimpleMIDI (melody : Melody.t) : completion (list Byte.byte) :=
  let header :=
    [ Byte.x4d; Byte.x54; Byte.x68; Byte.x64;
      Byte.x00; Byte.x00; Byte.x00; Byte.x06;
      Byte.x00; Byte.x00;
      Byte.x00; Byte.x01;
      Byte.x00; Byte.x60 ] in
  let trackData :=
    [ Byte.x4d; Byte.x54; Byte.x72; Byte.x6b;
      Byte.x00; Byte.x00; Byte.x00; Byte.x20;
      Byte.x00; Byte.xff; Byte.x2f; Byte.x00 ] in
  let result := Uint8Array_new (List.length header + List.length trackData) in
  result <- Uint8Array_set result header 0 ;;
  result <- Uint8Array_set result trackData (List.length header) ;;
  Normal result.

(** [downloadMIDI]: the stub goes into a blob, a link to it is put on the
    page, clicked, and taken off again. *)
Definition downloadMIDI (melody : Melody.t) (filename : string) : DOM.M unit :=
  midiData <~ DOM.lift (createSimpleMIDI melody) ;;
  let blob := {| content := midiData; mimeType := "audio/midi" |} in
  url <~ DOM.createObjectURL blob ;;
  a <~ DOM.createElement ;;
  let a := {| node := node a; href := Some url; download := download a |} in
  let a := {| node := node a; href := href a; download := Some filename |} in
  _ <~ DOM.appendChild a ;;
  _ <~ DOM.click a ;;
  _ <~ DOM.removeChild a ;;
  DOM.revokeObjectURL url.

End Part000.

(** ** Second revision of [musicUtils.ts] *)

Module Part001.

Import JS.
Import DOM.

Definition scalePatterns : list (string * list number) :=
  [ ("C",  map lit [60; 62; 64; 65; 67; 69; 71; 72]);
    ("G",  map lit [67; 69; 71; 72; 74; 76; 78; 79]);
    ("D",  map lit [62; 64; 66; 67; 69; 71; 73; 74]);
    ("A",  map lit [69; 71; 73; 74; 76; 78; 80; 81]);
    ("Am", map lit [69; 71; 72; 74; 76; 77; 79; 81]);
    ("Em", map lit [64; 66; 67; 69; 71; 72; 74; 76]);
    ("Dm", map lit [62; 64; 65; 67; 69; 70; 72; 74]) ]%string.

Definition genreSettings : list (string * Settings) :=
  [ ("classical",  {| jumpRange := lit 3; rhythmVariety := lit 0.3 |});
    ("jazz",       {| jumpRange := lit 5; rhythmVariety := lit 0.7 |});
    ("electronic", {| jumpRange := lit 6; rhythmVariety := lit 0.8 |});
    ("ambient",    {| jumpRange := lit 2; rhythmVariety := lit 0.2 |});
    ("minimalist", {| jumpRange := lit 1; rhythmVariety := lit 0.1 |});
    ("baroque",    {| jumpRange := lit 4; rhythmVariety := lit 0.4 |}) ]%string.

Definition iteration (scale : value (list number)) (settings : value Settings)
    (creativity : number) (rand : nat -> Q) (st : LoopState) : completion LoopState :=
  let i := draws st in
  jr <- field jumpRange settings ;;
  let pitchVariation :=
    Math_floor (mul (mul (mul (sub (Math_random rand i) (lit 0.5)) (lit 2)) (ToNumber jr))
                    creativity) in
  found <- indexOf scale (lastPitch st) ;;
  let scaleIndex := if strict_eq found (lit (-1)) then lit 0 else found in
  len <- length_of scale ;;
  let scaleIndex :=
    Math_max (lit 0) (Math_min (sub (ToNumber len) (lit 1)) (add scaleIndex pitchVariation)) in
  degree <- at_index scale scaleIndex ;;
  let pitch :=
    add (ToNumber degree)
        (if gtb (Math_random rand (i + 1)) (lit 0.8) then lit 12 else lit 0) in
  let baseDuration := lit 0.25 in
  rv <- field rhythmVariety settings ;;
  let rhythmFactor :=
    add (lit 1) (mul (mul (sub (Math_random rand (i + 2)) (lit 0.5)) (ToNumber rv)) creativity) in
  let duration := Math_max (lit 0.125) (mul baseDuration rhythmFactor) in
  let velocity := add (lit 60) (mul (mul (Math_random rand (i + 3)) (lit 40)) creativity) in
  Normal {| notes := notes st ++
                     [ {| Note.pitch := pitch;
                          Note.duration := duration;
                          Note.velocity := Math_floor velocity;
                          Note.time := currentTime st |} ];
            currentTime := add (currentTime st) duration;
            lastPitch := Some pitch;
            draws := i + 4 |}.

Fixpoint loop (n : nat) (scale : value (list number)) (settings : value Settings)
    (creativity : number) (rand : nat -> Q) (st : LoopState) : completion LoopState :=
  match n with
  | O => Normal st
  | S n' =>
      st' <- iteration scale settings creativity rand st ;;
      loop n' scale settings creativity rand st'
  end.

Definition generateMelody (params : GenerationParams.t) (rand : nat -> Q) : Generation :=
  {| delay := add (lit 2000) (mul (Math_random rand 0) (lit 2000));
     outcome :=
       let genre := GenerationParams.genre params in
       let creativity := Num (GenerationParams.creativity params) in
       let tempo := GenerationParams.tempo params in
       let key := GenerationParams.key params in
       let duration := GenerationParams.duration params in
       let noteCount := (duration * 4)%Z in
       let scale := or_else (get scalePatterns key) (get scalePatterns "C") in
       let settings := or_else (get genreSettings genre) (get genreSettings "classical") in
       let currentTime := lit 0 in
       len <- length_of scale ;;
       lastPitch <- at_index scale (Math_floor (div (ToNumber len) (lit 2))) ;;
       st <- loop (Z.to_nat noteCount) scale settings creativity rand
               {| notes := []; currentTime := currentTime; lastPitch := lastPitch; draws := 1 |} ;;
       Normal {| Melody.notes := notes st;
                 Melody.tempo := tempo;
                 Melody.key := key;
                 Melody.genre := genre |} |}.

Definition typeMap : list (string * string) :=
  [ ("classical", "sine"); ("jazz", "triangle"); ("electronic", "square");
    ("ambient", "sine"); ("minimalist", "sine"); ("baroque", "triangle") ]%string.

Definition getOscillatorType (genre : string) : value string :=
  or_else (get typeMap genre) (Own "sine"%string).

(** The voice a timer starts for a note, [t] being [audioContext.currentTime]
    when the timer fires. *)
Definition voice (w : Browser) (melody : Melody.t) (note : Note.t) (t : number) : Voice :=
  let frequency :=
    mul (lit 440) (Math_pow w (lit 2) (div (sub (Note.pitch note) (lit 69)) (lit 12))) in
  let volume := mul (div (Note.velocity note) (lit 127)) (lit 0.1) in
  {| frequency := (frequency, t);
     type := getOscillatorType (Melody.genre melody);
     gain := [ setValueAtTime volume t;
               exponentialRampToValueAtTime (lit 0.001) (add t (Note.duration note)) ];
     start := t;
     stop := add t (Note.duration note) |}.

(** [playMIDI]: the effects on the browser, in order, and how the call
    completes.  The calls into Web Audio are taken to return normally. *)
Definition playMIDI (w : Browser) (melody : Melody.t) (audioElement : option HTMLAudioElement)
    : list Effect * completion unit :=
  match audioElement with
  | None => ([], Normal tt)
  | Some _ =>
      if hasAudioContext w then
        ([NewAudioContext] ++
         map (fun note => SetTimeout (StartVoice (voice w melody note))
                                     (mul (Note.time note) (lit 1000)))
             (Melody.notes melody),
         Normal tt)
      else ([], Throw TypeError)
  end.

Definition createSimpleMIDI (melody : Melody.t) : completion (list Byte.byte) :=
  let header :=
    [ Byte.x4d; Byte.x54; Byte.x68; Byte.x64;
      Byte.x00; Byte.x00; Byte.x00; Byte.x06;
      Byte.x00; Byte.x00;
      Byte.x00; Byte.x01;
      Byte.x00; Byte.x60 ] in
  let trackData :=
    [ Byte.x4d; Byte.x54; Byte.x72; Byte.x6b;
      Byte.x00; Byte.x00; Byte.x00; Byte.x20;
      Byte.x00; Byte.xff; Byte.x2f; Byte.x00 ] in
  let result := Uint8Array_new (List.length header + List.length trackData) in
  result <- Uint8Array_set result header 0 ;;
  result <- Uint8Array_set result trackData (List.length header) ;;
  Normal result.

(** [downloadMIDI]: the stub goes into a blob, a link to it is put on the
    page, clicked, and taken off again. *)
Definition downloadMIDI (melody : Melody.t) (filename : string) : DOM.M unit :=
  midiData <~ DOM.lift (createSimpleMIDI melody) ;;
  let blob := {| content := midiData; mimeType := "audio/midi" |} in
  url <~ DOM.createObjectURL blob ;;
  a <~ DOM.createElement ;;
  let a := {| node := node a; href := Some url; download := download a |} in
  let a := {| node := node a; href := href a; download := Some filename |} in
  _ <~ DOM.appendChild a ;;
  _ <~ DOM.click a ;;
  _ <~ DOM.removeChild a ;;
  DOM.revokeObjectURL url.

End Part001.

(** ** [MIDIVisualizer]

    The component comes with the second revision.  What it renders is
    kept as data: one bar per note with the numbers and strings the JSX
    puts into the style and the tooltip, or the placeholder. *)

Module MIDIVisualizer.

Import JS.

Definition noteNames : list string :=
  [ "C"; "C#"; "D"; "D#"; "E"; "F"; "F#"; "G"; "G#"; "A"; "A#"; "B" ]%string.

Definition colors : list string :=
  [ "#ef4444"; "#f97316"; "#f59e0b"; "#eab308";
    "#84cc16"; "#22c55e"; "#10b981"; "#14b8a6";
    "#06b6d4"; "#0ea5e9"; "#3b82f6"; "#6366f1" ]%string.

Definition getNoteColor (noteIndex : number) : option string :=
  Array_get colors (rem noteIndex (lit 12)).

(** The bar of a note: [height] is the number put before the percent
    sign, [tooltip] the note name and the octave number written after it;
    a name or colour that is [undefined] renders as nothing. *)
Record Bar : Type := {
  height : number;
  backgroundColor : option string;
  opacity : number;
  pulse : bool;
  tooltip : option string * number
}.

Inductive View : Type :=
| Placeholder
| Bars (bars : list Bar).

(** The callback of [melody.notes.map]. *)
Definition bar (isPlaying : bool) (note : Note.t) : Bar :=
  let noteHeight := mul (div (sub (Note.pitch note) (lit 40)) (lit 40)) (lit 100) in
  let noteColor := getNoteColor (rem (Note.pitch note) (lit 12)) in
  let noteName := Array_get noteNames (rem (Note.pitch note) (lit 12)) in
  {| height := Math_max noteHeight (lit 10);
     backgroundColor := noteColor;
     opacity := if isPlaying then lit 0.8 else lit 0.6;
     pulse := isPlaying;
     tooltip := (noteName, Math_floor (div (Note.pitch note) (lit 12))) |}.

Definition render (melody : option Melody.t) (isPlaying : bool) : View :=
  match melody with
  | None => Placeholder
  | Some m => Bars (map (bar isPlaying) (Melody.notes m))
  end.

End MIDIVisualizer.

(** ** [MusicGenerator]

    The state of the component and its three handlers.  The sliders hold
    one-element arrays, of which the handler reads element 0; the element
    is kept here.  What the handlers leave pending (the interval that
    advances the progress bar, the promise of [generateMelody], the
    timeout that shows the melody) is part of the component; each of
    them runs when the browser fires it. *)

Module MusicGenerator.

Import JS.

Record State : Type := {
  isGenerating : bool;
  isPlaying : bool;
  currentMelody : option Melody.t;
  generationProgress : number;
  genre : string;
  creativity : Q;
  tempo : Z;
  keySignature : string;
  duration : Z
}.

Definition setIsGenerating (b : bool) (s : State) : State :=
  {| isGenerating := b;
     isPlaying := isPlaying s;
     currentMelody := currentMelody s;
     generationProgress := generationProgress s;
     genre := genre s; creativity := creativity s; tempo := tempo s;
     keySignature := keySignature s; duration := duration s |}.

Definition setIsPlaying (b : bool) (s : State) : State :=
  {| isGenerating := isGenerating s;
     isPlaying := b;
     currentMelody := currentMelody s;
     generationProgress := generationProgress s;
     genre := genre s; creativity := creativity s; tempo := tempo s;
     keySignature := keySignature s; duration := duration s |}.

Definition setCurrentMelody (m : option Melody.t) (s : State) : State :=
  {| isGenerating := isGenerating s;
     isPlaying := isPlaying s;
     currentMelody := m;
     generationProgress := generationProgress s;
     genre := genre s; creativity := creativity s; tempo := tempo s;
     keySignature := keySignature s; duration := duration s |}.

Definition setGenerationProgress (f : number -> number) (s : State) : State :=
  {| isGenerating := isGenerating s;
     isPlaying := isPlaying s;
     currentMelody := currentMelody s;
     generationProgress := f (generationProgress s);
     genre := genre s; creativity := creativity s; tempo := tempo s;
     keySignature := keySignature s; duration := duration s |}.

(** The state of the first render. *)
Definition initialState : State :=
  {| isGenerating := false;
     isPlaying := false;
     currentMelody := None;
     generationProgress := lit 0;
     genre := "classical";
     creativity := 0.7;
     tempo := 120;
     keySignature := "C";
     duration := 32 |}.

Inductive Toast : Type :=
| CompositionGenerated
| GenerationFailed
| FileDownloaded.

Inductive Action : Type :=
| PauseAudio
| WebAudio (e : Effect)
| ShowToast (t : Toast)
| LogGenerationError.

Record Component : Type := {
  state : State;
  progressInterval : bool;
  promise : option Generation;
  timeout : option Melody.t;
  actions : list Action
}.

Definition mounted : Component :=
  {| state := initialState;
     progressInterval := false;
     promise := None;
     timeout := None;
     actions := [] |}.

(** The revision of [musicUtils.ts] the component is built with.  The
    first [playMIDI] is an async function: the handler drops its promise,
    so a rejection does not reach the handler.  The second throws into
    its caller. *)
Inductive Revision : Type := first | second.

Definition generateMelody (r : Revision) : GenerationParams.t -> (nat -> Q) -> Generation :=
  match r with
  | first => Part000.generateMelody
  | second => Part001.generateMelody
  end.

Definition playMIDI (r : Revision) (w : Browser) (melody : Melody.t)
    (audioElement : option HTMLAudioElement) : list Effect * completion unit :=
  match r with
  | first => (fst (Part000.playMIDI w melody audioElement), Normal tt)
  | second => Part001.playMIDI w melody audioElement
  end.

(** The updater the interval hands to [setGenerationProgress]: the new
    value and whether the interval is cleared; [u] is the draw. *)
Definition progressUpdater (u : number) (prev : number) : number * bool :=
  if geb prev (lit 90) then (lit 90, true)
  else (add prev (mul u (lit 15)), false).

(** [handleGenerate] up to its [await]. *)
Definition handleGenerate (r : Revision) (rand : nat -> Q) (c : Component) : Component :=
  let s := setGenerationProgress (fun _ => lit 0) (setIsGenerating true (state c)) in
  {| state := s;
     progressInterval := true;
     promise :=
       Some (generateMelody r
               {| GenerationParams.genre := genre (state c);
                  GenerationParams.creativity := creativity (state c);
                  GenerationParams.tempo := tempo (state c);
                  GenerationParams.key := keySignature (state c);
                  GenerationParams.duration := duration (state c) |}
               rand);
     timeout := timeout c;
     actions := actions c |}.

(** The interval fires; [u] is what [Math.random] returns to it. *)
Definition intervalFires (u : Q) (c : Component) : Component :=
  if progressInterval c then
    {| state := setGenerationProgress (fun prev => fst (progressUpdater (Num u) prev)) (state c);
       progressInterval := negb (snd (progressUpdater (Num u) (generationProgress (state c))));
       promise := promise c;
       timeout := timeout c;
       actions := actions c |}
  else c.

(** The promise settles: the rest of the [try] block, or the [catch]
    block, which does not clear the interval. *)
Definition promiseSettles (c : Component) : Component :=
  match promise c with
  | None => c
  | Some g =>
      match outcome g with
      | Normal melody =>
          {| state := setGenerationProgress (fun _ => lit 100) (state c);
             progressInterval := false;
             promise := None;
             timeout := Some melody;
             actions := actions c |}
      | Throw _ =>
          {| state := setGenerationProgress (fun _ => lit 0) (setIsGenerating false (state c));
             progressInterval := progressInterval c;
             promise := None;
             timeout := timeout c;
             actions := actions c ++ [ShowToast GenerationFailed; LogGenerationError] |}
      end
  end.

(** The timeout set after the [await] fires. *)
Definition timeoutFires (c : Component) : Component :=
  match timeout c with
  | None => c
  | Some melody =>
      {| state :=
           setGenerationProgress (fun _ => lit 0)
             (setIsGenerating false (setCurrentMelody (Some melody) (state c)));
         progressInterval := progressInterval c;
         promise := promise c;
         timeout := None;
         actions := actions c ++ [ShowToast CompositionGenerated] |}
  end.

(** The text shown on the button while generating, without its percent
    sign, and the width of the bar. *)
Definition progressLabel (s : State) : number := Math_round (generationProgress s).

Definition handlePlayPause (r : Revision) (w : Browser) (audio : option HTMLAudioElement)
    (c : Component) : Component * completion unit :=
  match currentMelody (state c) with
  | None => (c, Normal tt)
  | Some melody =>
      if isPlaying (state c) then
        ({| state := setIsPlaying false (state c);
            progressInterval := progressInterval c;
            promise := promise c;
            timeout := timeout c;
            actions := actions c ++ match audio with Some _ => [PauseAudio] | None => [] end |},
         Normal tt)
      else
        match playMIDI r w melody audio with
        | (effects, Normal _) =>
            ({| state := setIsPlaying true (state c);
                progressInterval := progressInterval c;
                promise := promise c;
                timeout := timeout c;
                actions := actions c ++ map WebAudio effects |},
             Normal tt)
        | (effects, Throw e) =>
            ({| state := state c;
                progressInterval := progressInterval c;
                promise := promise c;
                timeout := timeout c;
                actions := actions c ++ map WebAudio effects |},
             Throw e)
        end
  end.

End MusicGenerator.


(** ** Vocabulary of the specification *)

(** [Math.random] returns a number in the interval [0, 1). *)
Definition unit_draws (rand : nat -> Q) : Prop := forall i, 0 <= rand i < 1.

(** The tag is not the name of a member every object literal inherits:
    a table lookup finds an entry of the table or nothing. *)
Definition plain_tag (tag : string) : Prop := JS.assoc JS.Object_prototype tag = None.



(** Notes laid end to end from [t0] to [t1]. *)
Fixpoint Timeline (t0 : JS.number) (l : list Note.t) (t1 : JS.number) : Prop :=
  match l with
  | [] => t0 = t1
  | a :: rest => Note.time a = t0 /\ Timeline (JS.add t0 (Note.duration a)) rest t1
  end.

(** A number a binary64 value can hold exactly. *)
Definition representable (x : Q) : Prop := Binary64.rnd x == x.

(** A note with a finite onset and a duration of at least an eighth. *)
Definition regular (a : Note.t) : Prop :=
  exists t d : Q,
    Note.time a = JS.Num t /\ Note.duration a = JS.Num d /\
    0 <= t /\ representable t /\ 1 # 8 <= d.

(** [4 * duration] notes, as the loop counts them. *)
Definition four_per_bar (p : GenerationParams.t) (m : Melody.t) : Prop :=
  Z.of_nat (List.length (Melody.notes m)) = (GenerationParams.duration p * 4)%Z.

Definition with_tags (p : GenerationParams.t) (genre key : string) : GenerationParams.t :=
  {| GenerationParams.genre := genre;
     GenerationParams.creativity := GenerationParams.creativity p;
     GenerationParams.tempo := GenerationParams.tempo p;
     GenerationParams.key := key;
     GenerationParams.duration := GenerationParams.duration p |}.

(** The degrees of the A minor scale. *)
Definition A_minor : list Z := [69; 71; 72; 74; 76; 77; 79; 81]%Z.

Definition in_scale_or_octave_above (scale : list Z) (pitch : JS.number) : Prop :=
  exists s : Z, In s scale /\
    (pitch = JS.Num (inject_Z s) \/ pitch = JS.Num (inject_Z (s + 12))).

(** The velocity of a note under the generation formula, with [velocity
    <= 60 + 40 * creativity] evaluated as JavaScript evaluates it. *)
Definition velocity_in_range (creativity : Q) (a : Note.t) : Prop :=
  exists v : Z,
    Note.velocity a = JS.Num (inject_Z v) /\
    (60 <= v <= 100)%Z /\
    JS.leb (Note.velocity a) (JS.add (JS.lit 60) (JS.mul (JS.lit 40) (JS.Num creativity))) = true.

(** A finite number. *)
Definition finite (n : JS.number) : Prop := exists q, n = JS.Num q.

(** An array of integers, and the shape of the arrays of [scalePatterns]:
    eight degrees in the MIDI range. *)
Definition degrees (zs : list Z) : list JS.number := map (fun z => JS.Num (inject_Z z)) zs.

Definition eight_small (zs : list Z) : Prop :=
  List.length zs = 8%nat /\ Forall (fun z => (0 <= z <= 127)%Z) zs.

(** The two tables as [generateMelody] reads them, with their defaults. *)
Definition resolved_scale (key : string) : JS.value (list JS.number) :=
  JS.or_else (JS.get Part000.scalePatterns key) (JS.get Part000.scalePatterns "C").

Definition resolved_settings (genre : string) : JS.value Settings :=
  JS.or_else (JS.get Part000.genreSettings genre) (JS.get Part000.genreSettings "classical").

(** The state the loop starts from, given the first value of [lastPitch]. *)
Definition initial (lastPitch : option JS.number) : LoopState :=
  {| notes := []; currentTime := JS.lit 0; lastPitch := lastPitch; draws := 1 |}.

(** The melody built from the final state of the loop. *)
Definition melody_of (p : GenerationParams.t) (st : LoopState) : Melody.t :=
  {| Melody.notes := notes st;
     Melody.tempo := GenerationParams.tempo p;
     Melody.key := GenerationParams.key p;
     Melody.genre := GenerationParams.genre p |}.

(** *** Inputs of the examples *)

Definition example_params (genre : string) (creativity : Q) (key : string) (duration : Z)
    : GenerationParams.t :=
  {| GenerationParams.genre := genre;
     GenerationParams.creativity := creativity;
     GenerationParams.tempo := 120;
     GenerationParams.key := key;
     GenerationParams.duration := duration |}.

(** The scenario of the specification. *)
Definition ambient_scenario : GenerationParams.t :=
  {| GenerationParams.genre := "ambient";
     GenerationParams.creativity := 0.5;
     GenerationParams.tempo := 90;
     GenerationParams.key := "Am";
     GenerationParams.duration := 8 |}.

(** Every draw is a half. *)
Definition halves : nat -> Q := fun _ => 1 # 2.

(** Every draw is [1 - 2^-52], a binary64 value just below one. *)
Definition almost_one : nat -> Q := fun _ => 1 - (1 # 2 ^ 52).

Definition empty_melody : Melody.t :=
  {| Melody.notes := []; Melody.tempo := 120; Melody.key := "C"; Melody.genre := "classical" |}.

(** ** Vocabulary of the further properties *)


Definition with_tempo (p : GenerationParams.t) (tempo : Z) : GenerationParams.t :=
  {| GenerationParams.genre := GenerationParams.genre p;
     GenerationParams.creativity := GenerationParams.creativity p;
     GenerationParams.tempo := tempo;
     GenerationParams.key := GenerationParams.key p;
     GenerationParams.duration := GenerationParams.duration p |}.

(** [noteCount] of [generateMelody], as the number of passes of its loop. *)
Definition noteCount (p : GenerationParams.t) : nat :=
  Z.to_nat (GenerationParams.duration p * 4).

(** Two streams of draws that agree from draw [lo] up to draw [hi - 1]. *)
Definition same_draws (lo hi : nat) (rand rand' : nat -> Q) : Prop :=
  forall i : nat, (lo <= i < hi)%nat -> rand i = rand' i.

(** [lo <= x && x <= hi] *)
Definition within (lo hi x : JS.number) : Prop :=
  JS.leb lo x = true /\ JS.leb x hi = true.

(** *** Voices *)







(** A note a player can take: a finite onset that is not negative, a
    duration of at least an eighth, a velocity from [lowest] to 127. *)
Definition playable (lowest : Q) (a : Note.t) : Prop :=
  exists t d v : Q,
    Note.time a = JS.Num t /\ 0 <= t /\
    Note.duration a = JS.Num d /\ 1 # 8 <= d /\
    Note.velocity a = JS.Num v /\ lowest <= v <= 127.

(** The oscillators among the effects, in order. *)
Fixpoint voices (effects : list Effect) : list Voice :=
  match effects with
  | [] => []
  | Schedule v :: rest => v :: voices rest
  | _ :: rest => voices rest
  end.

(** *** The MIDI file *)

(** A big-endian number, as in the length field of a chunk. *)
Definition big_endian (bs : list Byte.byte) : N :=
  fold_left (fun acc b => (acc * 256 + Byte.to_N b)%N) bs 0%N.

(** A chunk of a MIDI file: four bytes of tag, four of length, then the
    data. *)
Definition chunk_tag (chunk : list Byte.byte) : list Byte.byte := firstn 4 chunk.

Definition chunk_length (chunk : list Byte.byte) : N := big_endian (firstn 4 (skipn 4 chunk)).

Definition chunk_data (chunk : list Byte.byte) : list Byte.byte := skipn 8 chunk.

(** Every note has the velocity 60 and lasts a quarter, and note [i]
    starts at [i] quarters. *)
Definition metronomic (l : list Note.t) : Prop :=
  forall (i : nat) (a : Note.t),
    nth_error l i = Some a ->
    Note.velocity a = JS.Num 60 /\
    Note.duration a = JS.Num (1 # 4) /\
    exists t, Note.time a = JS.Num t /\ t == inject_Z (Z.of_nat i) * (1 # 4).

(** *** The page *)

(** The names in use on a page are older than the next ones it hands
    out. *)
Definition well_formed (pg : Page) : Prop :=
  Forall (fun n => (n < created pg)%nat) (body pg) /\
  Forall (fun e => (fst e < issued pg)%nat) (objectURLs pg).

Definition midi_blob (bytes : list Byte.byte) : Blob :=
  {| content := bytes; mimeType := "audio/midi" |}.

(** *** The component *)

(** The interval fires once for each draw of the list. *)
Definition intervalFiresEach (us : list Q) (c : MusicGenerator.Component)
    : MusicGenerator.Component :=
  fold_left (fun c u => MusicGenerator.intervalFires u c) us c.

(** The value of the progress and whether the interval is live, after the
    interval has fired on [us]. *)
Definition progress_after (us : list Q) (start : JS.number * bool) : JS.number * bool :=
  fold_left
    (fun (x : JS.number * bool) u =>
       if snd x
       then (fst (MusicGenerator.progressUpdater (JS.Num u) (fst x)),
             negb (snd (MusicGenerator.progressUpdater (JS.Num u) (fst x))))
       else x)
    us start.

(** What a firing of the interval keeps: the progress is a finite number
    from 0 to 105, and it is 90 once the interval has been cleared. *)
Definition interval_invariant (c : MusicGenerator.Component) : Prop :=
  (exists q,
     MusicGenerator.generationProgress (MusicGenerator.state c) = JS.Num q /\ 0 <= q <= 105) /\
  (MusicGenerator.progressInterval c = false ->
   MusicGenerator.generationProgress (MusicGenerator.state c) = JS.lit 90).

(** What the controls of the page let the user choose. *)
Definition selectable (s : MusicGenerator.State) : Prop :=
  In (MusicGenerator.genre s)
     ["classical"; "jazz"; "electronic"; "ambient"; "minimalist"; "baroque"]%string /\
  In (MusicGenerator.keySignature s) ["C"; "G"; "D"; "A"; "Am"; "Em"; "Dm"]%string /\
  0.1 <= MusicGenerator.creativity s <= 1 /\
  (60 <= MusicGenerator.tempo s <= 180)%Z /\
  (8 <= MusicGenerator.duration s <= 64)%Z.

(** *** Inputs of the examples *)

(** A note of pitch [z]. *)
Definition pitched (z : Z) : Note.t :=
  {| Note.pitch := JS.Num (inject_Z z);
     Note.duration := JS.lit 0.25;
     Note.velocity := JS.lit 80;
     Note.time := JS.lit 0 |}.

Definition two_notes : Melody.t :=
  {| Melody.notes :=
       [ pitched 60;
         {| Note.pitch := JS.lit 64; Note.duration := JS.lit 0.25;
            Note.velocity := JS.lit 80; Note.time := JS.lit 0.25 |} ];
     Melody.tempo := 120; Melody.key := "C"; Melody.genre := "jazz" |}.


Definition example_page : Page :=
  {| body := [0; 2]%nat;
     created := 3;
     objectURLs := [(0%nat, {| content := []; mimeType := "text/plain" |})];
     issued := 1;
     downloads := [] |}.

(** The component after a melody has been shown. *)
Definition with_melody (m : Melody.t) : MusicGenerator.Component :=
  {| MusicGenerator.state :=
       MusicGenerator.setCurrentMelody (Some m) MusicGenerator.initialState;
     MusicGenerator.progressInterval := false;
     MusicGenerator.promise := None;
     MusicGenerator.timeout := None;
     MusicGenerator.actions := [] |}.

Arguments Binary64.rnd : simpl never.
Arguments JS.lit : simpl never.

(** ** Facts on rounding *)

Import Binary64.

Lemma two_pow_pos k : 0 < 2 ^ k.
Proof. apply Qpower_0_lt. reflexivity. Qed.

Lemma two_pow_le a b : (a <= b)%Z -> 2 ^ a <= 2 ^ b.
Proof. intros. apply Qpower_le_compat_l; [assumption | discriminate]. Qed.

Lemma two_pow_lt a b : (a < b)%Z -> 2 ^ a < 2 ^ b.
Proof. intros. apply Qpower_lt_compat_l; [assumption | reflexivity]. Qed.

Lemma two_pow_lt_inv a b : 2 ^ a < 2 ^ b -> (a < b)%Z.
Proof. intros. apply Qpower_lt_compat_l_inv with (q := 2); [assumption | reflexivity]. Qed.

Lemma two_pow_Z n : (0 <= n)%Z -> 2 ^ n == inject_Z (2 ^ n).
Proof. intros. rewrite Zpower_Qpower by assumption. reflexivity. Qed.

Lemma Zlog2_Q (p : positive) :
  2 ^ (Z.log2 (Zpos p)) <= inject_Z (Zpos p) < 2 ^ (Z.log2 (Zpos p) + 1).
Proof.
  pose proof (Z.log2_spec (Zpos p) eq_refl) as [H1 H2].
  pose proof (Z.log2_nonneg (Zpos p)).
  rewrite !two_pow_Z by lia. rewrite <- Zle_Qle, <- Zlt_Qlt.
  replace (Z.log2 (Z.pos p) + 1)%Z with (Z.succ (Z.log2 (Z.pos p))) by lia. lia.
Qed.

Lemma ilog2_rough (x : Q) : 0 < x ->
  let k := (Z.log2 (Qnum x) - Z.log2 (Zpos (Qden x)))%Z in
  2 ^ (k - 1) < x < 2 ^ (k + 1).
Proof.
  destruct x as [n d]. intros Hx k. unfold k. simpl Qnum. simpl Qden.
  assert (Hn : (0 < n)%Z).
  { unfold Qlt in Hx. simpl in Hx. lia. }
  destruct n as [|p|p]; try lia.
  destruct (Zlog2_Q p) as [P1 P2]. destruct (Zlog2_Q d) as [D1 D2].
  set (a := Z.log2 (Zpos p)) in *. set (b := Z.log2 (Zpos d)) in *.
  assert (E : Zpos p # d == inject_Z (Zpos p) / inject_Z (Zpos d)).
  { rewrite (Qmake_Qdiv (Zpos p) d). reflexivity. }
  assert (Dpos : 0 < inject_Z (Zpos d)) by reflexivity.
  pose proof (two_pow_pos b) as Hb. pose proof (two_pow_pos (b + 1)) as Hb1.
  rewrite E. split.
  - apply Qlt_shift_div_l; [assumption|].
    assert (X : 2 ^ (a - b - 1) * 2 ^ (b + 1) == 2 ^ a).
    { rewrite <- Qpower_plus by discriminate. replace (a - b - 1 + (b + 1))%Z with a by lia. reflexivity. }
    pose proof (two_pow_pos (a - b - 1)).
    apply Qlt_le_trans with (2 ^ (a - b - 1) * 2 ^ (b + 1)).
    + apply Qmult_lt_l; assumption.
    + rewrite X. assumption.
  - apply Qlt_shift_div_r; [assumption|].
    assert (X : 2 ^ (a - b + 1) * 2 ^ b == 2 ^ (a + 1)).
    { rewrite <- Qpower_plus by discriminate. replace (a - b + 1 + b)%Z with (a + 1)%Z by lia. reflexivity. }
    pose proof (two_pow_pos (a - b + 1)).
    apply Qlt_le_trans with (2 ^ (a + 1)); [assumption|].
    rewrite <- X. apply Qmult_le_l; assumption.
Qed.

Lemma ilog2_spec (x : Q) : 0 < x -> 2 ^ (ilog2 x) <= x < 2 ^ (ilog2 x + 1).
Proof.
  intros Hx. pose proof (ilog2_rough x Hx) as H. cbv zeta in H.
  unfold ilog2. set (k := (Z.log2 (Qnum x) - Z.log2 (Zpos (Qden x)))%Z) in *.
  destruct (Qle_bool (2 ^ k) x) eqn:E.
  - apply Qle_bool_iff in E. tauto.
  - assert (~ 2 ^ k <= x) as N.
    { intro A. apply Qle_bool_iff in A. congruence. }
    apply Qnot_le_lt in N. replace (k - 1 + 1)%Z with k by lia.
    split; [apply Qlt_le_weak; tauto | assumption].
Qed.

Lemma ilog2_unique (x : Q) (k : Z) : 2 ^ k <= x < 2 ^ (k + 1) -> ilog2 x = k.
Proof.
  intros [H1 H2].
  assert (Hx : 0 < x) by (eapply Qlt_le_trans; [apply (two_pow_pos k) | assumption]).
  destruct (ilog2_spec x Hx) as [A B].
  assert (ilog2 x < k + 1)%Z.
  { apply two_pow_lt_inv. eapply Qle_lt_trans; eassumption. }
  assert (k < ilog2 x + 1)%Z.
  { apply two_pow_lt_inv. eapply Qle_lt_trans; eassumption. }
  lia.
Qed.

Lemma ilog2_mono (x y : Q) : 0 < x -> x <= y -> (ilog2 x <= ilog2 y)%Z.
Proof.
  intros Hx Hxy.
  assert (Hy : 0 < y) by (eapply Qlt_le_trans; eassumption).
  destruct (ilog2_spec x Hx) as [A _]. destruct (ilog2_spec y Hy) as [_ B].
  assert (ilog2 x < ilog2 y + 1)%Z; [|lia].
  apply two_pow_lt_inv. eapply Qle_lt_trans; [|eassumption].
  eapply Qle_trans; eassumption.
Qed.

Lemma floor_bounds (m : Q) : inject_Z (Qfloor m) <= m < inject_Z (Qfloor m) + 1.
Proof.
  split; [apply Qfloor_le|].
  pose proof (Qlt_floor m) as H. rewrite inject_Z_plus in H. exact H.
Qed.

Lemma rne_cases (m : Q) :
  (rne m = Qfloor m /\ m - inject_Z (Qfloor m) <= 1 # 2) \/
  (rne m = (Qfloor m + 1)%Z /\ 1 # 2 <= m - inject_Z (Qfloor m)).
Proof.
  unfold rne. destruct (Qcompare_spec (m - inject_Z (Qfloor m)) (1 # 2)) as [E|L|G].
  - destruct (Z.even (Qfloor m)); [left | right]; split; try reflexivity; rewrite E; apply Qle_refl.
  - left. split; [reflexivity | apply Qlt_le_weak; assumption].
  - right. split; [reflexivity | apply Qlt_le_weak; assumption].
Qed.

Lemma rne_Z (n : Z) : rne (inject_Z n) = n.
Proof.
  unfold rne. rewrite Qfloor_Z.
  destruct (Qcompare_spec (inject_Z n - inject_Z n) (1 # 2)) as [E|L|G].
  - exfalso. lra.
  - reflexivity.
  - exfalso. lra.
Qed.

Lemma rne_mono (x y : Q) : x <= y -> (rne x <= rne y)%Z.
Proof.
  intros Hxy. pose proof (Qfloor_resp_le x y Hxy) as Hf.
  destruct (Z.eq_dec (Qfloor x) (Qfloor y)) as [E|N].
  - unfold rne. rewrite <- E.
    destruct (Qcompare_spec (x - inject_Z (Qfloor x)) (1 # 2)) as [Ex|Lx|Gx];
    destruct (Qcompare_spec (y - inject_Z (Qfloor x)) (1 # 2)) as [Ey|Ly|Gy];
    try lia; try (exfalso; lra); destruct (Z.even (Qfloor x)); lia.
  - destruct (rne_cases x) as [[-> _]|[-> _]]; destruct (rne_cases y) as [[-> _]|[-> _]]; lia.
Qed.

Lemma rne_near (m : Q) : m - (1 # 2) <= inject_Z (rne m) <= m + (1 # 2).
Proof.
  destruct (floor_bounds m) as [A B].
  destruct (rne_cases m) as [[-> H]|[-> H]]; rewrite ?inject_Z_plus; change (inject_Z 1) with 1; lra.
Qed.

Lemma rne_between (m : Q) (a b : Z) :
  inject_Z a <= m -> m <= inject_Z b -> (a <= rne m <= b)%Z.
Proof.
  intros A B. split.
  - rewrite <- (rne_Z a). apply rne_mono; assumption.
  - rewrite <- (rne_Z b). apply rne_mono; assumption.
Qed.

(** Scaled mantissa of a positive number. *)
Lemma mant_bounds (x : Q) : 0 < x ->
  inject_Z (2 ^ 52) <= x / 2 ^ (ilog2 x - 52) < inject_Z (2 ^ 53).
Proof.
  intros Hx. destruct (ilog2_spec x Hx) as [A B].
  set (k := ilog2 x) in *. pose proof (two_pow_pos (k - 52)) as P.
  assert (E1 : inject_Z (2 ^ 52) * 2 ^ (k - 52) == 2 ^ k).
  { rewrite <- (two_pow_Z 52) by lia. rewrite <- Qpower_plus by discriminate.
    replace (52 + (k - 52))%Z with k by lia. reflexivity. }
  assert (E2 : inject_Z (2 ^ 53) * 2 ^ (k - 52) == 2 ^ (k + 1)).
  { rewrite <- (two_pow_Z 53) by lia. rewrite <- Qpower_plus by discriminate.
    replace (53 + (k - 52))%Z with (k + 1)%Z by lia. reflexivity. }
  split.
  - apply Qle_shift_div_l; [assumption|]. rewrite E1. assumption.
  - apply Qlt_shift_div_r; [assumption|]. rewrite E2. assumption.
Qed.

Lemma round_pos_bounds (x : Q) : 0 < x ->
  2 ^ (ilog2 x) <= round_pos x <= 2 ^ (ilog2 x + 1).
Proof.
  intros Hx. destruct (mant_bounds x Hx) as [A B].
  unfold round_pos. set (k := ilog2 x) in *. pose proof (two_pow_pos (k - 52)) as P.
  destruct (rne_between (x / 2 ^ (k - 52)) (2 ^ 52) (2 ^ 53) A (Qlt_le_weak _ _ B)) as [C D].
  rewrite Zle_Qle in C, D.
  assert (E1 : inject_Z (2 ^ 52) * 2 ^ (k - 52) == 2 ^ k).
  { rewrite <- (two_pow_Z 52) by lia. rewrite <- Qpower_plus by discriminate.
    replace (52 + (k - 52))%Z with k by lia. reflexivity. }
  assert (E2 : inject_Z (2 ^ 53) * 2 ^ (k - 52) == 2 ^ (k + 1)).
  { rewrite <- (two_pow_Z 53) by lia. rewrite <- Qpower_plus by discriminate.
    replace (53 + (k - 52))%Z with (k + 1)%Z by lia. reflexivity. }
  rewrite <- E1, <- E2. split; apply Qmult_le_compat_r; try assumption; apply Qlt_le_weak; assumption.
Qed.

(** The result is within half a unit in the last place of the argument. *)
Lemma round_pos_near (x : Q) : 0 < x ->
  Qabs (round_pos x - x) <= (1 # 2) * 2 ^ (ilog2 x - 52).
Proof.
  intros Hx. unfold round_pos. set (e := (ilog2 x - 52)%Z).
  pose proof (two_pow_pos e) as P. destruct (rne_near (x / 2 ^ e)) as [A B].
  assert (E : inject_Z (rne (x / 2 ^ e)) * 2 ^ e - x ==
              (inject_Z (rne (x / 2 ^ e)) - x / 2 ^ e) * 2 ^ e) by (field; lra).
  rewrite E. set (d := inject_Z (rne (x / 2 ^ e)) - x / 2 ^ e).
  assert (D : - (1 # 2) <= d <= 1 # 2) by (unfold d; lra).
  apply Qabs_Qle_condition. split.
  - setoid_replace (- ((1 # 2) * 2 ^ e)) with ((- (1 # 2)) * 2 ^ e) by ring.
    apply Qmult_le_compat_r; lra.
  - apply Qmult_le_compat_r; lra.
Qed.

Lemma round_pos_pos (x : Q) : 0 < x -> 0 < round_pos x.
Proof.
  intros Hx. eapply Qlt_le_trans; [apply (two_pow_pos (ilog2 x)) | apply round_pos_bounds; assumption].
Qed.

Lemma round_pos_mono (x y : Q) : 0 < x -> x <= y -> round_pos x <= round_pos y.
Proof.
  intros Hx Hxy.
  assert (Hy : 0 < y) by (eapply Qlt_le_trans; eassumption).
  pose proof (ilog2_mono x y Hx Hxy) as Hk.
  destruct (Z.eq_dec (ilog2 x) (ilog2 y)) as [E|N].
  - unfold round_pos. rewrite <- E. pose proof (two_pow_pos (ilog2 x - 52)) as P.
    apply Qmult_le_compat_r; [|apply Qlt_le_weak; assumption].
    rewrite <- Zle_Qle. apply rne_mono.
    apply Qmult_le_compat_r; [assumption|].
    apply Qlt_le_weak, Qinv_lt_0_compat; assumption.
  - destruct (round_pos_bounds x Hx) as [_ A]. destruct (round_pos_bounds y Hy) as [B _].
    eapply Qle_trans; [eassumption|]. eapply Qle_trans; [|eassumption].
    apply two_pow_le. lia.
Qed.

Lemma rne_comp (x y : Q) : x == y -> rne x = rne y.
Proof.
  intros E. apply Z.le_antisymm; apply rne_mono; rewrite E; apply Qle_refl.
Qed.

Lemma two_pow_div (a b : Z) : 2 ^ a / 2 ^ b == 2 ^ (a - b).
Proof.
  unfold Zminus. rewrite Qpower_plus by discriminate. rewrite Qpower_opp. reflexivity.
Qed.

Lemma round_pos_exact (n e : Z) :
  (0 < n <= 2 ^ 53)%Z -> round_pos (inject_Z n * 2 ^ e) == inject_Z n * 2 ^ e.
Proof.
  intros [Hn0 Hn]. set (x := inject_Z n * 2 ^ e).
  pose proof (two_pow_pos e) as Pe.
  assert (Hn0' : 0 < inject_Z n) by (rewrite Zlt_Qlt in Hn0; exact Hn0).
  assert (Hx : 0 < x) by (apply Qmult_lt_0_compat; assumption).
  destruct (ilog2_spec x Hx) as [A B].
  assert (exists z, x / 2 ^ (ilog2 x - 52) == inject_Z z) as [z Hz].
  { destruct (Z.eq_dec n (2 ^ 53)) as [E|N].
    - assert (Ex : x == 2 ^ (e + 53)).
      { unfold x. rewrite E, <- (two_pow_Z 53) by lia. rewrite <- Qpower_plus by discriminate.
        replace (53 + e)%Z with (e + 53)%Z by lia. reflexivity. }
      assert (K : ilog2 x = (e + 53)%Z).
      { apply ilog2_unique. rewrite Ex. split; [apply Qle_refl | apply two_pow_lt; lia]. }
      exists (2 ^ 52)%Z. rewrite K, Ex, two_pow_div.
      replace (e + 53 - (e + 53 - 52))%Z with 52%Z by lia. apply two_pow_Z. lia.
    - assert (Hlt : x < 2 ^ (e + 53)).
      { unfold x. replace (e + 53)%Z with (53 + e)%Z by lia.
        rewrite Qpower_plus by discriminate. apply Qmult_lt_compat_r; [assumption|].
        rewrite two_pow_Z by lia. rewrite <- Zlt_Qlt. lia. }
      assert (K : (ilog2 x < e + 53)%Z).
      { apply two_pow_lt_inv. eapply Qle_lt_trans; eassumption. }
      exists (n * 2 ^ (e - (ilog2 x - 52)))%Z.
      rewrite inject_Z_mult, <- two_pow_Z by lia.
      rewrite <- (two_pow_div e (ilog2 x - 52)).
      unfold x, Qdiv. ring. }
  unfold round_pos. rewrite (rne_comp _ _ Hz), rne_Z, <- Hz.
  pose proof (two_pow_pos (ilog2 x - 52)) as P. field. lra.
Qed.

Lemma round_pos_comp (x y : Q) : 0 < x -> x == y -> round_pos x == round_pos y.
Proof.
  intros Hx E. apply Qle_antisym; apply round_pos_mono; rewrite <- ?E; try assumption;
  rewrite ?E; apply Qle_refl.
Qed.

Lemma round_pos_shape (x : Q) : 0 < x ->
  exists n, (0 < n <= 2 ^ 53)%Z /\ round_pos x = inject_Z n * 2 ^ (ilog2 x - 52).
Proof.
  intros Hx. destruct (mant_bounds x Hx) as [A B].
  destruct (rne_between _ _ _ A (Qlt_le_weak _ _ B)) as [C D].
  exists (rne (x / 2 ^ (ilog2 x - 52))). split; [lia | reflexivity].
Qed.

(** * Properties of [rnd] *)

Lemma rnd_0 (x : Q) : x == 0 -> rnd x == 0.
Proof.
  intros E. unfold rnd. rewrite Qred_correct.
  destruct (Qcompare_spec x 0) as [_|L|G]; [reflexivity | exfalso; lra | exfalso; lra].
Qed.

Lemma rnd_pos (x : Q) : 0 < x -> rnd x == round_pos x.
Proof.
  intros H. unfold rnd. rewrite Qred_correct.
  destruct (Qcompare_spec x 0) as [E|L|G]; [exfalso; lra | exfalso; lra | reflexivity].
Qed.

Lemma rnd_neg (x : Q) : x < 0 -> rnd x == - round_pos (- x).
Proof.
  intros H. unfold rnd. rewrite Qred_correct.
  destruct (Qcompare_spec x 0) as [E|L|G]; [exfalso; lra | reflexivity | exfalso; lra].
Qed.

Lemma rnd_mono (x y : Q) : x <= y -> rnd x <= rnd y.
Proof.
  intros Hxy.
  destruct (Qlt_le_dec x 0) as [Lx|Gx]; [|destruct (Qeq_dec x 0) as [Ex|Nx]].
  - rewrite (rnd_neg x Lx).
    assert (0 < round_pos (- x)) by (apply round_pos_pos; lra).
    destruct (Qlt_le_dec y 0) as [Ly|Gy]; [|destruct (Qeq_dec y 0) as [Ey|Ny]].
    + rewrite (rnd_neg y Ly).
      assert (round_pos (- y) <= round_pos (- x)) by (apply round_pos_mono; lra). lra.
    + rewrite (rnd_0 y Ey). lra.
    + assert (0 < y) by (destruct (Qlt_le_dec 0 y); [assumption | exfalso; apply Ny; lra]).
      rewrite (rnd_pos y) by assumption.
      assert (0 < round_pos y) by (apply round_pos_pos; assumption). lra.
  - rewrite (rnd_0 x Ex).
    destruct (Qeq_dec y 0) as [Ey|Ny].
    + rewrite (rnd_0 y Ey). lra.
    + assert (0 < y) by (destruct (Qlt_le_dec 0 y); [assumption | exfalso; apply Ny; lra]).
      rewrite (rnd_pos y) by assumption.
      assert (0 < round_pos y) by (apply round_pos_pos; assumption). lra.
  - assert (0 < x) by (destruct (Qlt_le_dec 0 x); [assumption | exfalso; apply Nx; lra]).
    assert (0 < y) by lra.
    rewrite (rnd_pos x), (rnd_pos y) by assumption. apply round_pos_mono; assumption.
Qed.

Lemma rnd_comp (x y : Q) : x == y -> rnd x == rnd y.
Proof.
  intros E. apply Qle_antisym; apply rnd_mono; rewrite E; apply Qle_refl.
Qed.

#[global] Instance rnd_Proper : Proper (Qeq ==> Qeq) rnd.
Proof. intros x y E. apply rnd_comp, E. Qed.

Lemma rnd_exact (n e : Z) :
  (Z.abs n <= 2 ^ 53)%Z -> rnd (inject_Z n * 2 ^ e) == inject_Z n * 2 ^ e.
Proof.
  intros Hn. pose proof (two_pow_pos e) as Pe.
  destruct (Z.lt_trichotomy n 0) as [L|[E|G]].
  - assert (inject_Z n < 0) by (rewrite Zlt_Qlt in L; exact L).
    assert (X : inject_Z n * 2 ^ e < 0).
    { setoid_replace 0 with (0 * 2 ^ e) by ring. apply Qmult_lt_compat_r; assumption. }
    rewrite (rnd_neg _ X).
    assert (Y : - (inject_Z n * 2 ^ e) == inject_Z (- n) * 2 ^ e) by (rewrite inject_Z_opp; ring).
    assert (Pn : 0 < - (inject_Z n * 2 ^ e)) by lra.
    rewrite (round_pos_comp _ _ Pn Y), round_pos_exact by lia.
    rewrite inject_Z_opp. ring.
  - subst n. assert (Z0 : inject_Z 0 * 2 ^ e == 0) by (change (inject_Z 0) with 0; ring).
    rewrite (rnd_0 _ Z0), Z0. reflexivity.
  - assert (0 < inject_Z n) by (rewrite Zlt_Qlt in G; exact G).
    assert (X : 0 < inject_Z n * 2 ^ e) by (apply Qmult_lt_0_compat; assumption).
    rewrite (rnd_pos _ X). apply round_pos_exact. lia.
Qed.

Lemma rnd_Z (n : Z) : (Z.abs n <= 2 ^ 53)%Z -> rnd (inject_Z n) == inject_Z n.
Proof.
  intros H. pose proof (rnd_exact n 0 H) as E. change (2 ^ 0) with 1 in E.
  rewrite <- (Qmult_1_r (inject_Z n)) at 2. rewrite <- E. apply rnd_comp. ring.
Qed.

Lemma rnd_idem (x : Q) : rnd (rnd x) == rnd x.
Proof.
  destruct (Qlt_le_dec x 0) as [Lx|Gx]; [|destruct (Qeq_dec x 0) as [Ex|Nx]].
  - assert (Pn : 0 < - x) by lra.
    destruct (round_pos_shape (- x) Pn) as (n & Hn & E).
    rewrite (rnd_neg x Lx), E.
    assert (Y : - (inject_Z n * 2 ^ (ilog2 (- x) - 52)) == inject_Z (- n) * 2 ^ (ilog2 (- x) - 52))
      by (rewrite inject_Z_opp; ring).
    rewrite Y. apply rnd_exact. lia.
  - rewrite (rnd_0 x Ex). apply rnd_0. reflexivity.
  - assert (Hx : 0 < x) by (destruct (Qlt_le_dec 0 x); [assumption | exfalso; apply Nx; lra]).
    destruct (round_pos_shape x Hx) as (n & Hn & E).
    rewrite (rnd_pos x Hx), E. apply rnd_exact. lia.
Qed.

(** Values of [rnd] are reduced fractions, so equal values are equal terms. *)
Lemma rnd_canon (x y : Q) : rnd x == y -> rnd x = Qred y.
Proof.
  unfold rnd. intros E. apply Qred_complete. rewrite <- E. symmetry. apply Qred_correct.
Qed.

Lemma Qred_inject_Z (n : Z) : Qred (inject_Z n) = inject_Z n.
Proof.
  apply Qcanon.Qred_identity. simpl. apply Z.gcd_1_r.
Qed.

Lemma rnd_eq_Z (x : Q) (n : Z) :
  x == inject_Z n -> (Z.abs n <= 2 ^ 53)%Z -> rnd x = inject_Z n.
Proof.
  intros E H. rewrite <- Qred_inject_Z. apply rnd_canon.
  rewrite (rnd_comp _ _ E). apply rnd_Z, H.
Qed.

(** Rounding keeps integers integral, whatever their size. *)
Lemma round_pos_int (x : Q) (z : Z) :
  0 < x -> x == inject_Z z -> exists z', round_pos x == inject_Z z'.
Proof.
  intros Hx E. unfold round_pos. set (e := (ilog2 x - 52)%Z).
  destruct (Z.le_gt_cases 0 e) as [P|N].
  - exists (rne (x / 2 ^ e) * 2 ^ e)%Z.
    rewrite inject_Z_mult, <- two_pow_Z by assumption. reflexivity.
  - exists z.
    assert (Hz : x / 2 ^ e == inject_Z (z * 2 ^ (- e))).
    { rewrite inject_Z_mult, <- two_pow_Z by lia. rewrite E, Qpower_opp.
      unfold Qdiv. reflexivity. }
    rewrite (rne_comp _ _ Hz), rne_Z, <- Hz, E.
    pose proof (two_pow_pos e). field. lra.
Qed.

Lemma rnd_int (x : Q) (z : Z) : x == inject_Z z -> exists z', rnd x = inject_Z z'.
Proof.
  intros E.
  assert (exists z', rnd x == inject_Z z') as [z' Hz'].
  { destruct (Qlt_le_dec x 0) as [Lx|Gx]; [|destruct (Qeq_dec x 0) as [Ex|Nx]].
    - assert (P : 0 < - x) by lra.
      assert (E' : - x == inject_Z (- z)) by (rewrite inject_Z_opp, E; reflexivity).
      destruct (round_pos_int (- x) (- z) P E') as [w Hw].
      exists (- w)%Z. rewrite (rnd_neg x Lx), Hw, inject_Z_opp. reflexivity.
    - exists 0%Z. apply rnd_0, Ex.
    - assert (P : 0 < x) by (destruct (Qlt_le_dec 0 x); [assumption | exfalso; apply Nx; lra]).
      destruct (round_pos_int x z P E) as [w Hw].
      exists w. rewrite (rnd_pos x P). exact Hw. }
  exists z'. rewrite <- Qred_inject_Z. apply rnd_canon, Hz'.
Qed.

Lemma rnd_nonneg (x : Q) : 0 <= x -> 0 <= rnd x.
Proof.
  intros H. assert (E : rnd 0 == 0) by reflexivity. rewrite <- E. apply rnd_mono, H.
Qed.

Lemma rnd_le_const (x c : Q) : rnd c == c -> x <= c -> rnd x <= c.
Proof. intros E H. rewrite <- E. apply rnd_mono, H. Qed.

Lemma rnd_ge_const (x c : Q) : rnd c == c -> c <= x -> c <= rnd x.
Proof. intros E H. rewrite <- E. apply rnd_mono, H. Qed.

(** ** Facts on the arithmetic of numbers *)

Import JS.

Lemma rnd_small_literals :
  rnd 0 = 0 /\ rnd 1 = 1 /\ rnd 40 = 40 /\ rnd 60 = 60 /\ rnd 100 = 100 /\
  rnd 0.125 = 1 # 8 /\ rnd 0.25 = 1 # 4 /\ rnd (-1) = -1 /\ rnd 12 = 12.
Proof. vm_compute. repeat split. Qed.

Lemma Qle_bool_true (x y : Q) : x <= y -> Qle_bool x y = true.
Proof. intros H. apply Qle_bool_iff, H. Qed.

Lemma Qlt_bool_true (x y : Q) : Qlt_bool x y = true -> x < y.
Proof.
  unfold Qlt_bool. intros H. apply Qnot_le_lt. intros A.
  apply Qle_bool_iff in A. rewrite A in H. discriminate.
Qed.

(** *** Velocity *)

Lemma velocity_bounds (u c : Q) :
  0 <= u < 1 -> 0 <= c <= 1 ->
  exists v : Z,
    Math_floor (add (lit 60) (mul (mul (Num u) (lit 40)) (Num c))) = Num (inject_Z v) /\
    (60 <= v <= 100)%Z /\
    leb (Num (inject_Z v)) (add (lit 60) (mul (lit 40) (Num c))) = true.
Proof.
  intros [Hu0 Hu1] [Hc0 Hc1].
  destruct rnd_small_literals as (R0 & R1 & R40 & R60 & R100 & _).
  unfold lit, add, mul, Math_floor, leb. rewrite R40, R60.
  set (a := rnd (u * 40)).
  assert (Ha : 0 <= a <= 40).
  { split.
    - apply rnd_nonneg. nra.
    - apply rnd_le_const; [rewrite R40; reflexivity | nra]. }
  set (b := rnd (a * c)).
  assert (Hb : 0 <= b <= rnd (40 * c)).
  { split.
    - apply rnd_nonneg. nra.
    - apply rnd_mono. nra. }
  assert (Hb40 : rnd (40 * c) <= 40).
  { apply rnd_le_const; [rewrite R40; reflexivity | nra]. }
  set (s := rnd (60 + b)).
  assert (Hs : 60 <= s <= rnd (60 + rnd (40 * c))).
  { split.
    - apply rnd_ge_const; [rewrite R60; reflexivity | lra].
    - apply rnd_mono. lra. }
  assert (Hs100 : rnd (60 + rnd (40 * c)) <= 100).
  { apply rnd_le_const; [rewrite R100; reflexivity | lra]. }
  exists (Qfloor s). split; [reflexivity|].
  pose proof (Qfloor_le s) as F.
  split.
  - split.
    + change 60%Z with (Qfloor (inject_Z 60)). apply Qfloor_resp_le. exact (proj1 Hs).
    + change 100%Z with (Qfloor (inject_Z 100)). apply Qfloor_resp_le.
      change (inject_Z 100) with 100. lra.
  - apply Qle_bool_true. lra.
Qed.

(** *** Duration *)

Lemma Math_max_Num_lower (x y : Q) :
  exists d, Math_max (Num x) (Num y) = Num d /\ x <= d.
Proof.
  unfold Math_max. destruct (Qlt_bool x y) eqn:E.
  - exists y. split; [reflexivity | apply Qlt_le_weak, Qlt_bool_true, E].
  - exists x. split; [reflexivity | apply Qle_refl].
Qed.

Lemma duration_floor (x : Q) :
  exists d, Math_max (lit 0.125) (Num x) = Num d /\ 1 # 8 <= d.
Proof.
  destruct rnd_small_literals as (_ & _ & _ & _ & _ & R & _).
  unfold lit. rewrite R. apply Math_max_Num_lower.
Qed.

(** *** Onsets *)

Lemma representable_rnd (x : Q) : representable (rnd x).
Proof. apply rnd_idem. Qed.

Lemma onset_advances (t d : Q) :
  0 <= t -> representable t -> 0 <= d ->
  t <= rnd (t + d) /\ 0 <= rnd (t + d) /\ representable (rnd (t + d)).
Proof.
  intros Ht R Hd. unfold representable in R.
  assert (t <= rnd (t + d)).
  { rewrite <- R at 1. apply rnd_mono. lra. }
  repeat split; [assumption | lra | apply representable_rnd].
Qed.

(** ** Table lookups *)

Lemma assoc_In {A : Type} (l : list (string * A)) (k : string) (v : A) :
  assoc l k = Some v -> In (k, v) l.
Proof.
  induction l as [|[k' v'] l IH]; simpl; [discriminate|].
  destruct (String.eqb_spec k k') as [->|N]; intros H.
  - injection H as ->. left. reflexivity.
  - right. apply IH, H.
Qed.

Lemma get_absent {A : Type} (table : list (string * A)) (k : string) :
  plain_tag k -> assoc table k = None -> get table k = Undefined.
Proof. unfold plain_tag, get. intros -> ->. reflexivity. Qed.

Lemma lit_finite (q : Q) : finite (lit q).
Proof. exists (rnd q). reflexivity. Qed.

Lemma genreSettings_entries (g : string) (s : Settings) :
  In (g, s) Part000.genreSettings -> finite (jumpRange s) /\ finite (rhythmVariety s).
Proof.
  unfold Part000.genreSettings. simpl.
  intros H. repeat (destruct H as [H|H]; [injection H as _ <-; simpl; split; apply lit_finite|]).
  contradiction.
Qed.

Lemma scalePatterns_as_degrees :
  Part000.scalePatterns =
  [ ("C",  degrees [60; 62; 64; 65; 67; 69; 71; 72]%Z);
    ("G",  degrees [67; 69; 71; 72; 74; 76; 78; 79]%Z);
    ("D",  degrees [62; 64; 66; 67; 69; 71; 73; 74]%Z);
    ("A",  degrees [69; 71; 73; 74; 76; 78; 80; 81]%Z);
    ("Am", degrees A_minor);
    ("Em", degrees [64; 66; 67; 69; 71; 72; 74; 76]%Z);
    ("Dm", degrees [62; 64; 65; 67; 69; 70; 72; 74]%Z) ]%string.
Proof. vm_compute. reflexivity. Qed.

Lemma scalePatterns_entries (k : string) (l : list number) :
  In (k, l) Part000.scalePatterns -> exists zs, l = degrees zs /\ eight_small zs.
Proof.
  rewrite scalePatterns_as_degrees. intros H. cbn [In] in H.
  repeat (destruct H as [H|H];
    [apply (f_equal snd) in H; cbn [snd] in H; subst l; eexists; split;
     [reflexivity | split; [reflexivity | repeat constructor; lia]]|]).
  contradiction.
Qed.

(** ** One pass of the loop *)

(** What a pass that completes has done: the scale is an array, and the
    note pushed is computed from the draws [draws st .. draws st + 3]. *)
Lemma iteration_inv (scale : value (list number)) (settings : value Settings)
    (c : number) (rand : nat -> Q) (st st' : LoopState) :
  Part000.iteration scale settings c rand st = Normal st' ->
  exists (l : list number) (jr rv : option number) (n : Note.t),
    scale = Own l /\
    field jumpRange settings = Normal jr /\
    field rhythmVariety settings = Normal rv /\
    notes st' = notes st ++ [n] /\
    currentTime st' = add (currentTime st) (Note.duration n) /\
    lastPitch st' = Some (Note.pitch n) /\
    draws st' = (draws st + 4)%nat /\
    Note.time n = currentTime st /\
    Note.velocity n =
      Math_floor (add (lit 60) (mul (mul (Math_random rand (draws st + 3)) (lit 40)) c)) /\
    Note.duration n =
      Math_max (lit 0.125)
        (mul (lit 0.25)
           (add (lit 1)
              (mul (mul (sub (Math_random rand (draws st + 2)) (lit 0.5)) (ToNumber rv)) c))) /\
    Note.pitch n =
      add (ToNumber
             (Array_at l
                (Math_max (lit 0)
                   (Math_min
                      (sub (Num (inject_Z (Z.of_nat (List.length l)))) (lit 1))
                      (add
                         (if strict_eq (Num (inject_Z (find_from l (lastPitch st) 0))) (lit (-1))
                          then lit 0
                          else Num (inject_Z (find_from l (lastPitch st) 0)))
                         (Math_floor
                            (mul (mul (mul (sub (Math_random rand (draws st)) (lit 0.5)) (lit 2))
                                      (ToNumber jr)) c)))))))
          (if gtb (Math_random rand (draws st + 1)) (lit 0.8) then lit 12 else lit 0).
Proof.
  unfold Part000.iteration.
  destruct settings as [s|m|]; destruct scale as [l|m'|];
    cbn [bind field indexOf length_of at_index]; try discriminate;
    intros H; injection H as <-;
    cbn [notes currentTime lastPitch draws];
    do 4 eexists;
    (split; [reflexivity|]); (split; [reflexivity|]); (split; [reflexivity|]);
    (split; [reflexivity|]);
    cbn [Note.duration Note.pitch Note.time Note.velocity ToNumber];
    repeat split.
Qed.

Lemma iteration_total (l : list number) (settings : value Settings)
    (c : number) (rand : nat -> Q) (st : LoopState) :
  settings <> Undefined ->
  exists st', Part000.iteration (Own l) settings c rand st = Normal st'.
Proof.
  intros N. unfold Part000.iteration.
  destruct settings as [s|m|]; [| |contradiction];
    cbn [bind field indexOf length_of at_index]; eexists; reflexivity.
Qed.

Lemma iteration_throws (m : member) (settings : value Settings)
    (c : number) (rand : nat -> Q) (st : LoopState) :
  settings <> Undefined ->
  Part000.iteration (Inherited m) settings c rand st = Throw TypeError.
Proof.
  intros N. unfold Part000.iteration.
  destruct settings as [s|m'|]; [| |contradiction];
    cbn [bind field indexOf]; reflexivity.
Qed.

(** ** The whole loop *)

Lemma loop_total (n : nat) (l : list number) (settings : value Settings)
    (c : number) (rand : nat -> Q) (st : LoopState) :
  settings <> Undefined ->
  exists st', Part000.loop n (Own l) settings c rand st = Normal st'.
Proof.
  intros N. revert st. induction n as [|n IH]; intros st; simpl.
  - exists st. reflexivity.
  - destruct (iteration_total l settings c rand st N) as [st1 ->]. simpl. apply IH.
Qed.

Lemma loop_throws (n : nat) (m : member) (settings : value Settings)
    (c : number) (rand : nat -> Q) (st : LoopState) :
  settings <> Undefined ->
  Part000.loop (S n) (Inherited m) settings c rand st = Throw TypeError.
Proof.
  intros N. simpl. rewrite iteration_throws by assumption. reflexivity.
Qed.

(** An invariant of the state that every pass keeps holds at the end. *)
Lemma loop_invariant (P : LoopState -> Prop) (scale : value (list number))
    (settings : value Settings) (c : number) (rand : nat -> Q) :
  (forall st st', P st -> Part000.iteration scale settings c rand st = Normal st' -> P st') ->
  forall (n : nat) (st st' : LoopState),
    P st -> Part000.loop n scale settings c rand st = Normal st' -> P st'.
Proof.
  intros step n. induction n as [|n IH]; intros st st' HP H; simpl in H.
  - injection H as <-. exact HP.
  - destruct (Part000.iteration scale settings c rand st) as [st1|e] eqn:E; simpl in H;
      [|discriminate].
    apply (IH st1 st'); [eapply step; eassumption | exact H].
Qed.

Lemma loop_length (n : nat) (scale : value (list number)) (settings : value Settings)
    (c : number) (rand : nat -> Q) (st st' : LoopState) :
  Part000.loop n scale settings c rand st = Normal st' ->
  List.length (notes st') = (List.length (notes st) + n)%nat.
Proof.
  revert st. induction n as [|n IH]; intros st H; simpl in H.
  - injection H as <-. lia.
  - destruct (Part000.iteration scale settings c rand st) as [st1|e] eqn:E; simpl in H;
      [|discriminate].
    apply IH in H. rewrite H.
    destruct (iteration_inv _ _ _ _ _ _ E) as (l & jr & rv & nt & _ & _ & _ & Hn & _).
    rewrite Hn, length_app. simpl. lia.
Qed.

(** ** The generator as a whole *)

Lemma resolved_scale_cases (key : string) :
  (exists zs, resolved_scale key = Own (degrees zs) /\ eight_small zs) \/
  (exists m, resolved_scale key = Inherited m /\ assoc Object_prototype key = Some m).
Proof.
  unfold resolved_scale, get.
  destruct (assoc Part000.scalePatterns key) as [l|] eqn:E.
  - left. apply assoc_In, scalePatterns_entries in E. destruct E as (zs & -> & H).
    exists zs. split; [reflexivity | assumption].
  - destruct (assoc Object_prototype key) as [m|] eqn:P.
    + right. exists m. split; reflexivity.
    + left. exists [60; 62; 64; 65; 67; 69; 71; 72]%Z. split; [vm_compute; reflexivity|].
      split; [reflexivity | repeat constructor; lia].
Qed.

Lemma resolved_settings_cases (genre : string) :
  (exists s, resolved_settings genre = Own s /\ finite (jumpRange s) /\ finite (rhythmVariety s)) \/
  (exists m, resolved_settings genre = Inherited m /\ assoc Object_prototype genre = Some m).
Proof.
  unfold resolved_settings, get.
  destruct (assoc Part000.genreSettings genre) as [s|] eqn:E.
  - left. exists s. split; [reflexivity|]. apply assoc_In, genreSettings_entries in E. exact E.
  - destruct (assoc Object_prototype genre) as [m|] eqn:P.
    + right. exists m. split; reflexivity.
    + left. simpl. eexists. split; [reflexivity|]. split; apply lit_finite.
Qed.

Lemma resolved_settings_defined (genre : string) : resolved_settings genre <> Undefined.
Proof.
  destruct (resolved_settings_cases genre) as [(s & -> & _)|(m & -> & _)]; discriminate.
Qed.

Lemma resolved_scale_plain (key : string) :
  plain_tag key -> exists zs, resolved_scale key = Own (degrees zs) /\ eight_small zs.
Proof.
  intros Hp. destruct (resolved_scale_cases key) as [H|(m & _ & H)]; [exact H|].
  unfold plain_tag in Hp. congruence.
Qed.

Lemma resolved_settings_plain (genre : string) :
  plain_tag genre ->
  exists s, resolved_settings genre = Own s /\ finite (jumpRange s) /\ finite (rhythmVariety s).
Proof.
  intros Hp. destruct (resolved_settings_cases genre) as [H|(m & _ & H)]; [exact H|].
  unfold plain_tag in Hp. congruence.
Qed.

(** The promise of [generateMelody], read off its definition. *)
Lemma outcome_unfold (p : GenerationParams.t) (rand : nat -> Q) :
  outcome (Part000.generateMelody p rand) =
  (len <- length_of (resolved_scale (GenerationParams.key p)) ;;
   lastPitch <-
     at_index (resolved_scale (GenerationParams.key p))
       (Math_floor (div (ToNumber len) (lit 2))) ;;
   st <- Part000.loop (Z.to_nat (GenerationParams.duration p * 4))
           (resolved_scale (GenerationParams.key p))
           (resolved_settings (GenerationParams.genre p))
           (Num (GenerationParams.creativity p)) rand (initial lastPitch) ;;
   Normal (melody_of p st)).
Proof. reflexivity. Qed.

Lemma generate_inv (p : GenerationParams.t) (rand : nat -> Q) (m : Melody.t) :
  outcome (Part000.generateMelody p rand) = Normal m ->
  exists (lp : option number) (st : LoopState),
    Part000.loop (Z.to_nat (GenerationParams.duration p * 4))
      (resolved_scale (GenerationParams.key p))
      (resolved_settings (GenerationParams.genre p))
      (Num (GenerationParams.creativity p)) rand (initial lp) = Normal st /\
    m = melody_of p st.
Proof.
  rewrite outcome_unfold.
  destruct (length_of _) as [len|e]; simpl; [|discriminate].
  destruct (at_index _ _) as [lp|e]; simpl; [|discriminate].
  destruct (Part000.loop _ _ _ _ _ _) as [st|e] eqn:L; simpl; [|discriminate].
  intros H. injection H as <-. exists lp, st. split; [exact L | reflexivity].
Qed.

Lemma generate_total (p : GenerationParams.t) (rand : nat -> Q) :
  plain_tag (GenerationParams.key p) ->
  exists m, outcome (Part000.generateMelody p rand) = Normal m.
Proof.
  intros Hp. rewrite outcome_unfold.
  destruct (resolved_scale_plain _ Hp) as (zs & -> & _).
  cbn [length_of at_index bind].
  match goal with
  | |- context [Part000.loop ?n (Own ?l) ?se ?c ?r ?st] =>
      destruct (loop_total n l se c r st (resolved_settings_defined _)) as [st' L]
  end.
  rewrite L. cbn [bind]. eexists. reflexivity.
Qed.


Lemma generate_throws (p : GenerationParams.t) (rand : nat -> Q) :
  ~ plain_tag (GenerationParams.key p) ->
  assoc Part000.scalePatterns (GenerationParams.key p) = None ->
  (0 < GenerationParams.duration p)%Z ->
  outcome (Part000.generateMelody p rand) = Throw TypeError.
Proof.
  intros Hp Hown Hd. rewrite outcome_unfold.
  assert (exists m, resolved_scale (GenerationParams.key p) = Inherited m) as [m ->].
  { unfold resolved_scale, get, plain_tag in *. rewrite Hown.
    destruct (assoc Object_prototype (GenerationParams.key p)) as [m|]; [|contradiction].
    exists m. reflexivity. }
  destruct (Z.to_nat (GenerationParams.duration p * 4)) as [|n] eqn:E; [lia|].
  destruct m; simpl length_of; simpl at_index; cbn [bind];
    rewrite loop_throws by apply resolved_settings_defined; reflexivity.
Qed.

(** ** The two revisions of the generator

    The second revision is compared with the first piece by piece: the
    tables, one pass of the loop, the loop, the whole function. *)

Lemma tables_agree :
  Part001.scalePatterns = Part000.scalePatterns /\
  Part001.genreSettings = Part000.genreSettings.
Proof. split; reflexivity. Qed.

Lemma iteration_agree (scale : value (list number)) (settings : value Settings)
    (c : number) (rand : nat -> Q) (st : LoopState) :
  Part001.iteration scale settings c rand st = Part000.iteration scale settings c rand st.
Proof.
  unfold Part001.iteration, Part000.iteration.
  destruct settings, scale; reflexivity.
Qed.

Lemma loop_agree (n : nat) (scale : value (list number)) (settings : value Settings)
    (c : number) (rand : nat -> Q) (st : LoopState) :
  Part001.loop n scale settings c rand st = Part000.loop n scale settings c rand st.
Proof.
  revert st. induction n as [|n IH]; intros st; simpl.
  - reflexivity.
  - rewrite iteration_agree.
    destruct (Part000.iteration scale settings c rand st) as [st'|e]; simpl;
      [apply IH | reflexivity].
Qed.

Lemma generateMelody_agree (p : GenerationParams.t) (rand : nat -> Q) :
  Part001.generateMelody p rand = Part000.generateMelody p rand.
Proof.
  assert (D : delay (Part001.generateMelody p rand) = delay (Part000.generateMelody p rand))
    by reflexivity.
  assert (O : outcome (Part001.generateMelody p rand) = outcome (Part000.generateMelody p rand)).
  { unfold Part001.generateMelody, Part000.generateMelody. cbn [outcome].
    destruct tables_agree as [-> ->].
    destruct (length_of _) as [len|e]; cbn [bind]; [|reflexivity].
    destruct (at_index _ _) as [lp|e]; cbn [bind]; [|reflexivity].
    rewrite loop_agree. reflexivity. }
  destruct (Part001.generateMelody p rand), (Part000.generateMelody p rand).
  cbn [delay outcome] in D, O. subst. reflexivity.
Qed.


(** ** The timeline of the notes *)

Lemma Timeline_push (t0 t1 : number) (l : list Note.t) (n : Note.t) :
  Timeline t0 l t1 -> Note.time n = t1 ->
  Timeline t0 (l ++ [n]) (add t1 (Note.duration n)).
Proof.
  revert t0. induction l as [|a l IH]; simpl; intros t0 H Hn.
  - subst. split; reflexivity.
  - destruct H as [Ha H]. split; [exact Ha | apply IH; assumption].
Qed.


Lemma Timeline_first (t0 t1 : number) (a : Note.t) (l : list Note.t) :
  Timeline t0 (a :: l) t1 -> Note.time a = t0.
Proof. intros [H _]. exact H. Qed.

Lemma loop_timeline (n : nat) (scale : value (list number)) (settings : value Settings)
    (c : number) (rand : nat -> Q) (st st' : LoopState) (t0 : number) :
  Timeline t0 (notes st) (currentTime st) ->
  Part000.loop n scale settings c rand st = Normal st' ->
  Timeline t0 (notes st') (currentTime st').
Proof.
  intros H L.
  apply (loop_invariant (fun s => Timeline t0 (notes s) (currentTime s))
           scale settings c rand) with (n := n) (st := st); [|exact H|exact L].
  intros s s' Hs E.
  destruct (iteration_inv _ _ _ _ _ _ E)
    as (l & jr & rv & nt & _ & _ & _ & Hn & Ht & _ & _ & Htime & _).
  rewrite Hn, Ht. apply Timeline_push; assumption.
Qed.

(** With settings taken from the table every note is regular, and the
    clock stays a finite representable number. *)
Lemma loop_regular (n : nat) (scale : value (list number)) (s : Settings)
    (c : Q) (rand : nat -> Q) (st st' : LoopState) :
  finite (rhythmVariety s) ->
  (exists t, currentTime st = Num t /\ 0 <= t /\ representable t) ->
  Forall regular (notes st) ->
  Part000.loop n scale (Own s) (Num c) rand st = Normal st' ->
  (exists t, currentTime st' = Num t /\ 0 <= t /\ representable t) /\
  Forall regular (notes st').
Proof.
  intros [r Hr] Ht Hreg L.
  apply (loop_invariant
           (fun x => (exists t, currentTime x = Num t /\ 0 <= t /\ representable t) /\
                     Forall regular (notes x))
           scale (Own s) (Num c) rand) with (n := n) (st := st); [|split; assumption|exact L].
  intros x x' [(t & Hx & Ht0 & Htr) Hx_reg] E.
  destruct (iteration_inv _ _ _ _ _ _ E)
    as (l & jr & rv & nt & _ & _ & Hrv & Hn & Hct & _ & _ & Htime & _ & Hdur & _).
  simpl in Hrv. injection Hrv as <-.
  assert (exists d, Note.duration nt = Num d /\ 1 # 8 <= d) as (d & Hd & Hd8).
  { rewrite Hdur. cbn [ToNumber]. rewrite Hr. apply duration_floor. }
  destruct (onset_advances t d Ht0 Htr) as (A & B & C); [lra|].
  split.
  - exists (rnd (t + d)). rewrite Hct, Hx, Hd. repeat split; assumption.
  - rewrite Hn. apply Forall_app. split; [assumption|].
    constructor; [|constructor].
    exists t, d. rewrite Htime. repeat split; assumption.
Qed.


(** ** Pitches *)

Lemma lit_0 : lit 0 = Num (inject_Z 0).
Proof. vm_compute. reflexivity. Qed.

Lemma lit_12 : lit 12 = Num (inject_Z 12).
Proof. vm_compute. reflexivity. Qed.

Lemma add_integers (a b : Z) :
  exists w, add (Num (inject_Z a)) (Num (inject_Z b)) = Num (inject_Z w).
Proof.
  destruct (rnd_int (inject_Z a + inject_Z b) (a + b)) as [w Hw].
  - rewrite inject_Z_plus. reflexivity.
  - exists w. unfold add. rewrite Hw. reflexivity.
Qed.

Lemma add_small_integers (a b : Z) :
  (Z.abs (a + b) <= 2 ^ 53)%Z ->
  add (Num (inject_Z a)) (Num (inject_Z b)) = Num (inject_Z (a + b)).
Proof.
  intros H. unfold add. rewrite (rnd_eq_Z _ (a + b)); [reflexivity| |exact H].
  rewrite inject_Z_plus. reflexivity.
Qed.

(** [Math.max(0, Math.min(7, w))] on an integer is an integer from 0 to 7. *)
Lemma clamp_integer (w : Z) :
  exists j, (0 <= j <= 7)%Z /\
    Math_max (lit 0) (Math_min (Num (inject_Z 7)) (Num (inject_Z w))) = Num (inject_Z j).
Proof.
  rewrite lit_0. unfold Math_min.
  destruct (Qlt_bool (inject_Z w) (inject_Z 7)) eqn:E7.
  - apply Qlt_bool_true in E7. rewrite <- Zlt_Qlt in E7.
    unfold Math_max. destruct (Qlt_bool (inject_Z 0) (inject_Z w)) eqn:E0.
    + apply Qlt_bool_true in E0. rewrite <- Zlt_Qlt in E0.
      exists w. split; [lia | reflexivity].
    + exists 0%Z. split; [lia | reflexivity].
  - exists 7%Z. split; [lia | reflexivity].
Qed.

Lemma Array_at_degrees (zs : list Z) (j : Z) :
  (0 <= j < Z.of_nat (List.length zs))%Z ->
  exists s, In s zs /\ Array_at (degrees zs) (Num (inject_Z j)) = Some (Num (inject_Z s)).
Proof.
  intros Hj. unfold Array_at, is_index. rewrite Qfloor_Z.
  assert (Qle_bool 0 (inject_Z j) = true) as ->.
  { apply Qle_bool_true. change 0 with (inject_Z 0). rewrite <- Zle_Qle. lia. }
  assert (Qeq_bool (inject_Z j) (inject_Z j) = true) as -> by (apply Qeq_bool_iff; reflexivity).
  simpl. destruct (nth_error zs (Z.to_nat j)) as [s|] eqn:E.
  - exists s. split; [eapply nth_error_In; eassumption|].
    unfold degrees. rewrite nth_error_map, E. reflexivity.
  - apply nth_error_None in E. lia.
Qed.

(** The pitch a pass computes lies in the scale or an octave above it,
    whatever the last pitch and the draws. *)
Lemma pitch_in_scale (zs : list Z) (lp : option number) (x : Q) (octave : bool) :
  eight_small zs ->
  in_scale_or_octave_above zs
    (add (ToNumber
            (Array_at (degrees zs)
               (Math_max (lit 0)
                  (Math_min
                     (sub (Num (inject_Z (Z.of_nat (List.length (degrees zs))))) (lit 1))
                     (add
                        (if strict_eq (Num (inject_Z (find_from (degrees zs) lp 0))) (lit (-1))
                         then lit 0
                         else Num (inject_Z (find_from (degrees zs) lp 0)))
                        (Math_floor (Num x)))))))
         (if octave then lit 12 else lit 0)).
Proof.
  intros [Hlen Hsmall].
  assert (L7 : sub (Num (inject_Z (Z.of_nat (List.length (degrees zs))))) (lit 1) =
               Num (inject_Z 7)).
  { unfold degrees. rewrite length_map, Hlen. vm_compute. reflexivity. }
  rewrite L7.
  assert (exists k, (if strict_eq (Num (inject_Z (find_from (degrees zs) lp 0))) (lit (-1))
                     then lit 0
                     else Num (inject_Z (find_from (degrees zs) lp 0))) = Num (inject_Z k))
    as [k ->].
  { destruct (strict_eq _ _); [exists 0%Z; apply lit_0 | eexists; reflexivity]. }
  cbn [Math_floor].
  destruct (add_integers k (Qfloor x)) as [w ->].
  destruct (clamp_integer w) as (j & Hj & ->).
  destruct (Array_at_degrees zs j) as (s & Hs & ->); [lia|].
  cbn [ToNumber]. exists s. split; [exact Hs|].
  rewrite Forall_forall in Hsmall. specialize (Hsmall s Hs).
  destruct octave.
  - right. rewrite lit_12. apply add_small_integers. lia.
  - left. rewrite lit_0. rewrite add_small_integers by lia.
    replace (s + 0)%Z with s by lia. reflexivity.
Qed.

Lemma loop_pitches (n : nat) (zs : list Z) (s : Settings) (c : Q) (rand : nat -> Q)
    (st st' : LoopState) :
  eight_small zs -> finite (jumpRange s) ->
  Forall (fun a => in_scale_or_octave_above zs (Note.pitch a)) (notes st) ->
  Part000.loop n (Own (degrees zs)) (Own s) (Num c) rand st = Normal st' ->
  Forall (fun a => in_scale_or_octave_above zs (Note.pitch a)) (notes st').
Proof.
  intros Hzs [jrq Hjr] H0 L.
  apply (loop_invariant
           (fun x => Forall (fun a => in_scale_or_octave_above zs (Note.pitch a)) (notes x))
           (Own (degrees zs)) (Own s) (Num c) rand) with (n := n) (st := st);
    [|exact H0|exact L].
  intros x x' Hx E.
  destruct (iteration_inv _ _ _ _ _ _ E)
    as (l & jr & rv & nt & Hl & Hj & _ & Hn & _ & _ & _ & _ & _ & _ & Hp).
  injection Hl as <-. simpl in Hj. injection Hj as <-.
  rewrite Hn. apply Forall_app. split; [assumption|].
  constructor; [|constructor].
  rewrite Hp. cbn [ToNumber]. rewrite Hjr.
  apply (pitch_in_scale zs (lastPitch x) _ _ Hzs).
Qed.

(** ** Velocities *)

Lemma loop_velocities (n : nat) (scale : value (list number)) (settings : value Settings)
    (c : Q) (rand : nat -> Q) (st st' : LoopState) :
  unit_draws rand -> 0 <= c <= 1 ->
  Forall (velocity_in_range c) (notes st) ->
  Part000.loop n scale settings (Num c) rand st = Normal st' ->
  Forall (velocity_in_range c) (notes st').
Proof.
  intros Hu Hc H0 L.
  apply (loop_invariant (fun x => Forall (velocity_in_range c) (notes x))
           scale settings (Num c) rand) with (n := n) (st := st); [|exact H0|exact L].
  intros x x' Hx E.
  destruct (iteration_inv _ _ _ _ _ _ E)
    as (l & jr & rv & nt & _ & _ & _ & Hn & _ & _ & _ & _ & Hv & _).
  rewrite Hn. apply Forall_app. split; [assumption|].
  constructor; [|constructor].
  destruct (velocity_bounds (rand (draws x + 3)%nat) c (Hu _) Hc) as (v & Ev & Hv60 & Hle).
  exists v. unfold Math_random in Hv. rewrite Hv, Ev. repeat split; try lia. exact Hle.
Qed.

(** ** Playback *)

(** With an audio element and an [AudioContext], the first revision
    schedules its voices at once, two effects for each note, and the
    second sets one timer for each note. *)
Lemma forEach_length (f : Note.t -> nat -> list Effect) (k : nat) (l : list Note.t) (i : nat) :
  (forall note index, List.length (f note index) = k) ->
  List.length (Part000.forEach f l i) = (k * List.length l)%nat.
Proof.
  intros Hf. revert i. induction l as [|a l IH]; intros i; simpl.
  - lia.
  - rewrite length_app, Hf, IH. lia.
Qed.

Lemma playMIDI_with_target (w : Browser) (melody : Melody.t) :
  hasAudioContext w = true ->
  (exists effects,
     Part000.playMIDI w melody (Some AudioElement) = (effects, Normal tt) /\
     List.length effects =
       ((if suspended w then 5 else 4) + 2 * List.length (Melody.notes melody))%nat) /\
  (exists effects,
     Part001.playMIDI w melody (Some AudioElement) = (effects, Normal tt) /\
     List.length effects = S (List.length (Melody.notes melody))).
Proof.
  intros H. unfold Part000.playMIDI, Part001.playMIDI. rewrite H. split.
  - eexists. split; [reflexivity|].
    rewrite !length_app, (forEach_length _ 2) by reflexivity.
    destruct (suspended w); cbn [List.length]; lia.
  - eexists. split; [reflexivity|]. cbn [app List.length]. rewrite length_map. reflexivity.
Qed.

(** ** The rounding model against the kernel's binary64 arithmetic

    On closed terms the kernel evaluates [PrimFloat] operations with the
    hardware arithmetic of the machine; [rnd] of the exact result gives
    the same values. *)

Lemma rnd_agrees_on_literals :
  Prim2Q 0x1.3333333333333p-2%float = Some (rnd 0.3) /\
  Prim2Q 0x1.999999999999ap-4%float = Some (rnd 0.1) /\
  Prim2Q 0x1.999999999999ap-1%float = Some (rnd 0.8) /\
  Prim2Q 0x1.6666666666666p-1%float = Some (rnd 0.7) /\
  Prim2Q 0x1p-3%float = Some (rnd 0.125).
Proof. vm_compute. repeat split. Qed.

(** Sums, differences, products and quotients of pseudo-random floats,
    and of floats close to one, where the exponents are equal and ties
    and cancellation occur. *)
Lemma rnd_agrees_on_samples :
  agrees_on (samples 200 12345) = true /\
  agrees_on (map (fun f => (f * 0x1p-30 + 1)%float) (samples 200 77)) = true.
Proof. vm_compute. split; reflexivity. Qed.

Lemma rnd_agrees_on_operations :
  let u := 0x1.ffffffffffffep-1%float in
  let c := 0x1.999999999999ap-4%float in
  Prim2Q u = Some (almost_one 0) /\
  Prim2Q (u * 40)%float = Some (rnd (almost_one 0 * 40)) /\
  Prim2Q (60 + u * 40 * 1)%float = Some (rnd (60 + rnd (rnd (almost_one 0 * 40) * 1))) /\
  Prim2Q (u - 0.5)%float = Some (rnd (almost_one 0 - 0.5)) /\
  Prim2Q (c * 3)%float = Some (rnd (rnd 0.1 * 3)) /\
  Prim2Q (c + c + c)%float = Some (rnd (rnd (rnd 0.1 + rnd 0.1) + rnd 0.1)) /\
  Prim2Q (c - 0.5)%float = Some (rnd (rnd 0.1 - 0.5)) /\
  Prim2Q ((c - 0.5) * 2 * 3 * c)%float =
    Some (rnd (rnd (rnd (rnd (rnd 0.1 - 0.5) * 2) * 3) * rnd 0.1)) /\
  Prim2Q (1 / 3)%float = Some (rnd (1 / 3)) /\
  Prim2Q (60 + u * 40 * 1)%float = Some 100.
Proof. vm_compute. repeat split. Qed.

(** ** The claims of the specification *)

(** C1. For every parameter record with a positive number of bars, the
    melody that [generateMelody] returns has exactly [duration * 4]
    notes, whatever the random draws; and a melody is returned whenever
    the key is a plain tag.  Both revisions. *)
Theorem C1_four_notes_per_bar (p : GenerationParams.t) (rand : nat -> Q) :
  (0 < GenerationParams.duration p)%Z ->
  (forall m, outcome (Part000.generateMelody p rand) = Normal m -> four_per_bar p m) /\
  (forall m, outcome (Part001.generateMelody p rand) = Normal m -> four_per_bar p m) /\
  (plain_tag (GenerationParams.key p) ->
   exists m, outcome (Part000.generateMelody p rand) = Normal m /\
             outcome (Part001.generateMelody p rand) = Normal m).
Proof.
  intros Hd. rewrite (generateMelody_agree p rand).
  assert (H : forall m, outcome (Part000.generateMelody p rand) = Normal m -> four_per_bar p m).
  { intros m Hm. destruct (generate_inv p rand m Hm) as (lp & st & L & ->).
    apply loop_length in L. unfold four_per_bar, melody_of. simpl in *. rewrite L. lia. }
  split; [exact H|]. split; [exact H|].
  intros Hk. destruct (generate_total p rand Hk) as [m Hm]. exists m. split; exact Hm.
Qed.

Lemma C1_witness :
  exists m,
    outcome (Part000.generateMelody (example_params "jazz" 0.5 "G" 2) halves) = Normal m /\
    four_per_bar (example_params "jazz" 0.5 "G" 2) m.
Proof.
  eexists. split.
  - vm_compute. reflexivity.
  - apply (proj1 (C1_four_notes_per_bar (example_params "jazz" 0.5 "G" 2) halves eq_refl)).
    vm_compute. reflexivity.
Defined.

(** C2, at the input where it fails.  With the genre ["constructor"] the
    lookup in [genreSettings] returns the inherited function [Object]
    and not the entry of [classical]; its [rhythmVariety] is [undefined],
    every duration is [NaN], and so is every onset after the first: for
    the first two notes both [a.time <= b.time] and
    [a.time + a.duration === b.time] are false. *)
Theorem C2_timeline_broken_by_inherited_genre :
  resolved_settings "constructor" = Inherited (BuiltinFunction "Object" 1) /\
  exists (m : Melody.t) (a b : Note.t),
    outcome (Part000.generateMelody (example_params "constructor" 0.5 "C" 1) halves) = Normal m /\
    outcome (Part001.generateMelody (example_params "constructor" 0.5 "C" 1) halves) = Normal m /\
    nth_error (Melody.notes m) 0 = Some a /\
    nth_error (Melody.notes m) 1 = Some b /\
    Note.duration a = NaN /\ Note.time b = NaN /\
    leb (Note.time a) (Note.time b) = false /\
    strict_eq (add (Note.time a) (Note.duration a)) (Note.time b) = false.
Proof.
  split; [reflexivity|].
  do 3 eexists. split; [vm_compute; reflexivity|].
  split; [vm_compute; reflexivity|].
  repeat split.
Qed.



(** C3, as stated, fails: the buffer has 26 bytes, not 32. *)
Lemma C3_counterexample :
  exists bytes,
    Part000.createSimpleMIDI empty_melody = Normal bytes /\
    Part001.createSimpleMIDI empty_melody = Normal bytes /\
    List.length bytes <> 32%nat.
Proof.
  eexists. split; [reflexivity|]. split; [reflexivity|]. simpl. discriminate.
Qed.

(** C3, amended.  For every melody, the empty one included, the encoder
    returns a buffer of exactly 26 bytes: the 14-byte header block
    followed by the 12-byte track block.  Both revisions. *)
Theorem C3_buffer_has_26_bytes (m : Melody.t) :
  exists header track : list Byte.byte,
    Part000.createSimpleMIDI m = Normal (header ++ track) /\
    Part001.createSimpleMIDI m = Normal (header ++ track) /\
    List.length header = 14%nat /\
    List.length track = 12%nat /\
    List.length (header ++ track) = 26%nat.
Proof.
  exists [ Byte.x4d; Byte.x54; Byte.x68; Byte.x64; Byte.x00; Byte.x00; Byte.x00; Byte.x06;
           Byte.x00; Byte.x00; Byte.x00; Byte.x01; Byte.x00; Byte.x60 ].
  exists [ Byte.x4d; Byte.x54; Byte.x72; Byte.x6b; Byte.x00; Byte.x00; Byte.x00; Byte.x20;
           Byte.x00; Byte.xff; Byte.x2f; Byte.x00 ].
  repeat split.
Qed.

(** C4. The encoder returns the same bytes for any two melodies: its
    output does not depend on the notes, the tempo, the key or the genre.
    Both revisions, which also agree with each other. *)
Theorem C4_encoder_ignores_melody (m1 m2 : Melody.t) :
  Part000.createSimpleMIDI m1 = Part000.createSimpleMIDI m2 /\
  Part001.createSimpleMIDI m1 = Part001.createSimpleMIDI m2 /\
  Part000.createSimpleMIDI m1 = Part001.createSimpleMIDI m2.
Proof. repeat split. Qed.




(** C6. For the call with genre ["ambient"], creativity [0.5], tempo
    [90], key ["Am"] and [8] bars, whatever the draws: the result has
    exactly 32 notes, the first note starts at time [0], and every pitch
    is a degree of A minor, [69, 71, 72, 74, 76, 77, 79, 81], or such a
    degree plus 12.  Both revisions. *)
Theorem C6_ambient_scenario (rand : nat -> Q) :
  exists (m : Melody.t) (first : Note.t) (rest : list Note.t),
    outcome (Part000.generateMelody ambient_scenario rand) = Normal m /\
    outcome (Part001.generateMelody ambient_scenario rand) = Normal m /\
    Melody.notes m = first :: rest /\
    List.length (Melody.notes m) = 32%nat /\
    Note.time first = Num 0 /\
    Forall (fun a => in_scale_or_octave_above A_minor (Note.pitch a)) (Melody.notes m).
Proof.
  rewrite (generateMelody_agree ambient_scenario rand).
  destruct (generate_total ambient_scenario rand eq_refl) as [m Hm].
  destruct (generate_inv _ _ _ Hm) as (lp & st & L & Em).
  assert (Es : resolved_scale (GenerationParams.key ambient_scenario) = Own (degrees A_minor))
    by (vm_compute; reflexivity).
  assert (Eg : resolved_settings (GenerationParams.genre ambient_scenario) =
               Own {| jumpRange := lit 2; rhythmVariety := lit 0.2 |}) by reflexivity.
  rewrite Es, Eg in L.
  pose proof (loop_length _ _ _ _ _ _ _ L) as Hlen.
  change (Z.to_nat (GenerationParams.duration ambient_scenario * 4)) with 32%nat in Hlen.
  simpl in Hlen.
  assert (T : Timeline (lit 0) (notes st) (currentTime st)).
  { apply (loop_timeline _ _ _ _ _ _ _ _ (eq_refl : Timeline (lit 0) (notes (initial lp)) _) L). }
  assert (P : Forall (fun a => in_scale_or_octave_above A_minor (Note.pitch a)) (notes st)).
  { assert (H8 : eight_small A_minor) by (split; [reflexivity | repeat constructor; lia]).
    exact (loop_pitches _ _ {| jumpRange := lit 2; rhythmVariety := lit 0.2 |} _ _
             (initial lp) st H8 (lit_finite 2) (Forall_nil _) L). }
  destruct (notes st) as [|first rest] eqn:En; [discriminate|].
  exists m, first, rest.
  split; [exact Hm|]. split; [exact Hm|].
  subst m. cbn [melody_of Melody.notes]. rewrite En.
  split; [reflexivity|]. split; [exact Hlen|]. split; [|exact P].
  apply Timeline_first in T. rewrite T. vm_compute. reflexivity.
Qed.

(** C7, at the inputs where it fails.  The key ["constructor"] and the
    genre ["toString"] are in neither table, yet the lookups return the
    members inherited from [Object.prototype], which are truthy, so the
    defaults are not taken: with the key the call raises a [TypeError]
    ([scale.indexOf] is not a function) where the key ["C"] returns a
    melody, and with the genre the notes differ from those of the genre
    ["classical"] under the same draws.  Both revisions. *)
Theorem C7_inherited_tags_bypass_fallback :
  assoc Part000.scalePatterns "constructor" = None /\
  assoc Part000.genreSettings "toString" = None /\
  resolved_scale "constructor" = Inherited (BuiltinFunction "Object" 1) /\
  resolved_settings "toString" = Inherited (BuiltinFunction "toString" 0) /\
  outcome (Part000.generateMelody (example_params "classical" 0.5 "constructor" 1) halves)
    = Throw TypeError /\
  outcome (Part001.generateMelody (example_params "classical" 0.5 "constructor" 1) halves)
    = Throw TypeError /\
  exists m m' : Melody.t,
    outcome (Part000.generateMelody (example_params "classical" 0.5 "C" 1) halves) = Normal m /\
    outcome (Part000.generateMelody (example_params "toString" 0.5 "C" 1) halves) = Normal m' /\
    Melody.notes m' <> Melody.notes m.
Proof.
  split; [reflexivity|]. split; [reflexivity|].
  split; [reflexivity|]. split; [reflexivity|].
  split; [vm_compute; reflexivity|]. split; [vm_compute; reflexivity|].
  do 2 eexists. split; [vm_compute; reflexivity|]. split; [vm_compute; reflexivity|].
  cbn [Melody.notes]. discriminate.
Qed.

(** The fallback of C7 for the tags it does cover: a genre and a key
    that are in neither table and are plain tags give the notes of
    ["classical"] and ["C"] under the same draws, and no error. *)
Lemma plain_unknown_tags_fall_back (p : GenerationParams.t) (rand : nat -> Q)
    (genre key : string) :
  plain_tag genre -> assoc Part000.genreSettings genre = None ->
  plain_tag key -> assoc Part000.scalePatterns key = None ->
  exists m m' : Melody.t,
    outcome (Part000.generateMelody (with_tags p genre key) rand) = Normal m /\
    outcome (Part000.generateMelody (with_tags p "classical" "C") rand) = Normal m' /\
    Melody.notes m = Melody.notes m' /\ Melody.tempo m = Melody.tempo m'.
Proof.
  intros Hg Ng Hk Nk.
  assert (Es : resolved_scale key = resolved_scale "C").
  { unfold resolved_scale. rewrite (get_absent _ _ Hk Nk). reflexivity. }
  assert (Eg : resolved_settings genre = resolved_settings "classical").
  { unfold resolved_settings. rewrite (get_absent _ _ Hg Ng). reflexivity. }
  destruct (generate_total (with_tags p genre key) rand Hk) as [m Hm].
  destruct (generate_inv _ _ _ Hm) as (lp & st & L & ->).
  exists (melody_of (with_tags p genre key) st), (melody_of (with_tags p "classical" "C") st).
  split; [exact Hm|]. split; [|split; reflexivity].
  rewrite outcome_unfold in Hm |- *.
  cbn [with_tags GenerationParams.key GenerationParams.genre GenerationParams.duration
       GenerationParams.creativity] in Hm |- *.
  rewrite Es, Eg in Hm.
  destruct (length_of (resolved_scale "C")) as [len|e]; cbn [bind] in Hm |- *; [|discriminate].
  destruct (at_index (resolved_scale "C") _) as [lp'|e]; cbn [bind] in Hm |- *; [|discriminate].
  destruct (Part000.loop _ _ _ _ _ _) as [st'|e]; cbn [bind] in Hm |- *; [|discriminate].
  injection Hm as Hn. unfold melody_of. rewrite Hn. reflexivity.
Qed.

Lemma plain_unknown_tags_witness :
  exists m m' : Melody.t,
    outcome (Part000.generateMelody (example_params "foo" 0.5 "Zz" 2) almost_one) = Normal m /\
    outcome (Part000.generateMelody (example_params "classical" 0.5 "C" 2) almost_one)
      = Normal m' /\
    Melody.notes m = Melody.notes m' /\ Melody.tempo m = Melody.tempo m'.
Proof.
  exact (plain_unknown_tags_fall_back (example_params "foo" 0.5 "Zz" 2) almost_one "foo" "Zz"
           eq_refl eq_refl eq_refl eq_refl).
Defined.

(** C8, at the inputs where it fails.  With the key ["constructor"], or
    ["__proto__"], the lookup in [scalePatterns] returns a member
    inherited from [Object.prototype] and the first pass of the loop
    raises a [TypeError]: the generator is not total.  Shown with a
    creativity out of range and one bar, and with 400 bars.  Both
    revisions. *)
Theorem C8_throws_on_inherited_key :
  outcome (Part000.generateMelody (example_params "classical" 5 "constructor" 1) halves)
    = Throw TypeError /\
  outcome (Part001.generateMelody (example_params "classical" 5 "constructor" 1) halves)
    = Throw TypeError /\
  outcome (Part000.generateMelody (example_params "jazz" 0.5 "__proto__" 400) halves)
    = Throw TypeError /\
  outcome (Part001.generateMelody (example_params "jazz" 0.5 "__proto__" 400) halves)
    = Throw TypeError.
Proof. repeat split; vm_compute; reflexivity. Qed.



(** A key that is in neither table and is no plain tag makes every call
    with at least one bar throw, whatever the creativity and the draws. *)
Lemma inherited_key_throws (p : GenerationParams.t) (rand : nat -> Q) :
  ~ plain_tag (GenerationParams.key p) ->
  assoc Part000.scalePatterns (GenerationParams.key p) = None ->
  (0 < GenerationParams.duration p)%Z ->
  outcome (Part000.generateMelody p rand) = Throw TypeError /\
  outcome (Part001.generateMelody p rand) = Throw TypeError.
Proof.
  intros Hp Hown Hd. rewrite (generateMelody_agree p rand).
  split; apply generate_throws; assumption.
Qed.

(** C9. For every melody, [playMIDI] called with no audio element
    returns at once: it has no effect on the browser, so no oscillator is
    created and no timer is set, and it does not throw.  Both revisions. *)
Theorem C9_no_output_target (w : Browser) (melody : Melody.t) :
  Part000.playMIDI w melody None = ([], Normal tt) /\
  Part001.playMIDI w melody None = ([], Normal tt).
Proof. split; reflexivity. Qed.

(** C10. The two revisions of the generator are equivalent: from the same
    parameters and the same stream of draws they return the same promise,
    hence the same notes, tempo, key and genre. *)
Theorem C10_revisions_agree (p : GenerationParams.t) (rand : nat -> Q) :
  Part000.generateMelody p rand = Part001.generateMelody p rand /\
  forall m : Melody.t,
    outcome (Part000.generateMelody p rand) = Normal m <->
    outcome (Part001.generateMelody p rand) = Normal m.
Proof.
  pose proof (generateMelody_agree p rand) as E. split.
  - symmetry. exact E.
  - intros m. rewrite E. tauto.
Qed.

(** ** Further properties of the generator *)

Lemma unit_draws_halves : unit_draws halves.
Proof. intros i. split; vm_compute; [discriminate | reflexivity]. Qed.

Lemma unit_draws_almost_one : unit_draws almost_one.
Proof. intros i. split; vm_compute; [discriminate | reflexivity]. Qed.







Lemma delay_bounds (u : Q) :
  0 <= u < 1 ->
  exists d, add (lit 2000) (mul (Num u) (lit 2000)) = Num d /\ 2000 <= d <= 4000.
Proof.
  intros Hu. unfold lit. cbn [add mul].
  assert (E : rnd 2000 = 2000) by (vm_compute; reflexivity). rewrite E.
  eexists. split; [reflexivity|].
  assert (R0 : rnd 0 == 0) by reflexivity.
  assert (R2 : rnd 2000 == 2000) by (rewrite E; reflexivity).
  assert (R4 : rnd 4000 == 4000) by (vm_compute; reflexivity).
  assert (A : 0 <= rnd (u * 2000) <= 2000).
  { split; [apply rnd_ge_const | apply rnd_le_const]; try assumption; lra. }
  split; [apply rnd_ge_const | apply rnd_le_const]; try assumption; lra.
Qed.

(** The promise settles after a finite delay between 2000 and 4000
    milliseconds, both bounds included, when the first draw is in
    [0, 1); the delay does not depend on the parameters.  Both
    revisions. *)
Theorem promise_settles_within_two_to_four_seconds (p : GenerationParams.t)
    (rand : nat -> Q) :
  0 <= rand 0%nat < 1 ->
  exists d : Q,
    delay (Part000.generateMelody p rand) = Num d /\
    delay (Part001.generateMelody p rand) = Num d /\
    2000 <= d <= 4000.
Proof.
  intros Hu. destruct (delay_bounds (rand 0%nat) Hu) as (d & E & B).
  exists d. repeat split; try exact E; apply B.
Qed.

Lemma promise_settles_witness :
  exists d : Q,
    delay (Part000.generateMelody ambient_scenario halves) = Num d /\
    delay (Part001.generateMelody ambient_scenario halves) = Num d /\
    2000 <= d <= 4000.
Proof.
  apply (promise_settles_within_two_to_four_seconds ambient_scenario halves).
  unfold halves. split; [discriminate | reflexivity].
Defined.

Lemma iteration_ext (scale : value (list number)) (settings : value Settings)
    (c : number) (rand rand' : nat -> Q) (st : LoopState) :
  same_draws (draws st) (draws st + 4) rand rand' ->
  Part000.iteration scale settings c rand st = Part000.iteration scale settings c rand' st.
Proof.
  intros H. unfold Part000.iteration, Math_random.
  rewrite (H (draws st)), (H (draws st + 1)%nat), (H (draws st + 2)%nat),
    (H (draws st + 3)%nat) by lia.
  reflexivity.
Qed.

Lemma loop_ext (n : nat) (scale : value (list number)) (settings : value Settings)
    (c : number) (rand rand' : nat -> Q) (st : LoopState) :
  same_draws (draws st) (draws st + 4 * n) rand rand' ->
  Part000.loop n scale settings c rand st = Part000.loop n scale settings c rand' st.
Proof.
  revert st. induction n as [|n IH]; intros st H; [reflexivity|].
  cbn [Part000.loop].
  rewrite (iteration_ext scale settings c rand rand' st)
    by (intros i Hi; apply H; lia).
  destruct (Part000.iteration scale settings c rand' st) as [st'|e] eqn:E; [|reflexivity].
  cbn [bind]. apply IH.
  destruct (iteration_inv _ _ _ _ _ _ E) as (l & jr & rv & nt & _ & _ & _ & _ & _ & _ & D & _).
  intros i Hi. apply H. lia.
Qed.

(** The call makes one draw for the delay and four for each note, and
    reads nothing else of the stream: two streams with the same first
    draw give the same delay, and two streams that agree on draws 1 to
    [4 * noteCount] give the same melody or the same exception.  Both
    revisions. *)
Theorem outcome_reads_four_draws_per_note (p : GenerationParams.t) (rand rand' : nat -> Q) :
  (rand 0%nat = rand' 0%nat ->
   delay (Part000.generateMelody p rand) = delay (Part000.generateMelody p rand') /\
   delay (Part001.generateMelody p rand) = delay (Part001.generateMelody p rand')) /\
  (same_draws 1 (1 + 4 * noteCount p) rand rand' ->
   outcome (Part000.generateMelody p rand) = outcome (Part000.generateMelody p rand') /\
   outcome (Part001.generateMelody p rand) = outcome (Part001.generateMelody p rand')).
Proof.
  split.
  - intros E. cbn [delay Part000.generateMelody Part001.generateMelody]. unfold Math_random.
    rewrite E. split; reflexivity.
  - intros H. rewrite (generateMelody_agree p rand), (generateMelody_agree p rand').
    assert (O : outcome (Part000.generateMelody p rand) =
                outcome (Part000.generateMelody p rand')).
    { rewrite !outcome_unfold.
      destruct (length_of _) as [len|e]; [|reflexivity]. cbn [bind].
      destruct (at_index _ _) as [lp|e]; [|reflexivity]. cbn [bind].
      rewrite (loop_ext _ _ _ _ rand rand' (initial lp)); [reflexivity|].
      exact H. }
    split; exact O.
Qed.

Lemma outcome_reads_four_draws_witness :
  outcome (Part000.generateMelody (example_params "jazz" 0.5 "G" 1) halves) =
  outcome (Part000.generateMelody (example_params "jazz" 0.5 "G" 1)
             (fun i => if (i <=? 16)%nat then 1 # 2 else 0)).
Proof.
  apply (outcome_reads_four_draws_per_note (example_params "jazz" 0.5 "G" 1) halves
           (fun i => if (i <=? 16)%nat then 1 # 2 else 0)).
  intros i Hi. change (noteCount (example_params "jazz" 0.5 "G" 1)) with 4%nat in Hi.
  unfold halves.
  destruct (Nat.leb_spec i 16) as [_|G]; [reflexivity | lia].
Defined.

(** The tempo is copied into the melody and read nowhere: changing the
    tempo of the parameters changes neither the delay nor the notes (nor
    the exception), and [playMIDI] produces the same effects for the two
    melodies, in both revisions. *)
Theorem tempo_is_carried_and_never_read (p : GenerationParams.t) (tempo : Z)
    (rand : nat -> Q) (w : Browser) (audioElement : option HTMLAudioElement) :
  delay (Part000.generateMelody (with_tempo p tempo) rand) =
    delay (Part000.generateMelody p rand) /\
  match outcome (Part000.generateMelody p rand),
        outcome (Part000.generateMelody (with_tempo p tempo) rand) with
  | Normal m, Normal m' =>
      Melody.notes m' = Melody.notes m /\
      Melody.tempo m = GenerationParams.tempo p /\ Melody.tempo m' = tempo /\
      Part000.playMIDI w m' audioElement = Part000.playMIDI w m audioElement /\
      Part001.playMIDI w m' audioElement = Part001.playMIDI w m audioElement
  | Throw e, Throw e' => e = e'
  | _, _ => False
  end.
Proof.
  split; [reflexivity|].
  rewrite !outcome_unfold. cbn [with_tempo GenerationParams.key GenerationParams.genre
    GenerationParams.duration GenerationParams.creativity].
  destruct (length_of _) as [len|e]; cbn [bind]; [|reflexivity].
  destruct (at_index _ _) as [lp|e]; cbn [bind]; [|reflexivity].
  destruct (Part000.loop _ _ _ _ _ _) as [st|e]; cbn [bind]; [|reflexivity].
  repeat split; reflexivity.
Qed.

Lemma genreSettings_variety (g : string) (s : Settings) :
  In (g, s) Part000.genreSettings ->
  exists r, rhythmVariety s = Num r /\ 0 <= r <= rnd 0.8.
Proof.
  unfold Part000.genreSettings. cbn [In].
  intros H.
  repeat (destruct H as [H|H];
    [injection H as _ <-; cbn [rhythmVariety]; unfold lit; eexists; split;
     [reflexivity | vm_compute; split; discriminate]|]).
  contradiction.
Qed.

Lemma resolved_settings_variety (genre : string) (s : Settings) :
  resolved_settings genre = Own s ->
  exists r, rhythmVariety s = Num r /\ 0 <= r <= rnd 0.8.
Proof.
  unfold resolved_settings, get.
  destruct (assoc Part000.genreSettings genre) as [s'|] eqn:E.
  - cbn [or_else]. intros H. injection H as <-.
    apply assoc_In, genreSettings_variety in E. exact E.
  - destruct (assoc Object_prototype genre) as [m|] eqn:P; cbn [or_else]; [discriminate|].
    intros H. apply (genreSettings_variety "classical").
    assert (A : assoc Part000.genreSettings "classical" = Some s).
    { destruct (assoc Part000.genreSettings "classical") as [c|] eqn:C; [|discriminate C].
      simpl in H. injection H as <-. reflexivity. }
    apply assoc_In, A.
Qed.

(** The duration formula on a rhythm variety of at most 0.8, the largest
    of the table: the floor of 0.125 is never the larger argument of
    [Math.max]. *)
Lemma duration_range (u r c : Q) :
  0 <= u < 1 -> 0 <= r <= rnd 0.8 -> 0 <= c <= 1 ->
  exists d,
    Math_max (lit 0.125)
      (mul (lit 0.25) (add (lit 1) (mul (mul (sub (Num u) (lit 0.5)) (Num r)) (Num c)))) = Num d /\
    rnd 0.15 <= d <= rnd 0.35.
Proof.
  intros Hu Hr Hc. unfold lit. cbn [sub mul add].
  assert (E5 : rnd 0.5 = 1 # 2) by (vm_compute; reflexivity).
  assert (E1 : rnd 1 = 1) by (vm_compute; reflexivity).
  assert (E25 : rnd 0.25 = 1 # 4) by (vm_compute; reflexivity).
  assert (E125 : rnd 0.125 = 1 # 8) by (vm_compute; reflexivity).
  rewrite E5, E1, E25, E125.
  set (h := rnd ((1 # 2) * rnd 0.8)).
  assert (Hh : rnd h == h) by apply rnd_idem.
  assert (Hnh : rnd (- h) == - h) by (vm_compute; reflexivity).
  assert (H8 : 0 <= rnd 0.8 <= 1) by (vm_compute; split; discriminate).
  assert (Hh8 : (1 # 2) * rnd 0.8 == h) by (vm_compute; reflexivity).
  assert (Rh : rnd (1 # 2) == 1 # 2) by (vm_compute; reflexivity).
  assert (Rnh : rnd (- (1 # 2)) == - (1 # 2)) by (vm_compute; reflexivity).
  set (x1 := rnd (u - (1 # 2))).
  assert (B1 : - (1 # 2) <= x1 <= 1 # 2).
  { split; [apply rnd_ge_const | apply rnd_le_const]; try assumption; lra. }
  set (x2 := rnd (x1 * r)).
  assert (B2 : - h <= x2 <= h).
  { split; [apply rnd_ge_const | apply rnd_le_const]; try assumption; nra. }
  set (x3 := rnd (x2 * c)).
  assert (Hh0 : 0 <= h) by (vm_compute; discriminate).
  assert (B3 : - h <= x3 <= h).
  { split; [apply rnd_ge_const | apply rnd_le_const]; try assumption; nra. }
  set (rf := rnd (1 + x3)).
  assert (B4 : rnd (1 - h) <= rf <= rnd (1 + h)).
  { split; apply rnd_mono; lra. }
  set (d := rnd ((1 # 4) * rf)).
  assert (B5 : rnd ((1 # 4) * rnd (1 - h)) <= d <= rnd ((1 # 4) * rnd (1 + h))).
  { split; apply rnd_mono; lra. }
  assert (L : rnd ((1 # 4) * rnd (1 - h)) = rnd 0.15) by (vm_compute; reflexivity).
  assert (U : rnd ((1 # 4) * rnd (1 + h)) = rnd 0.35) by (vm_compute; reflexivity).
  rewrite L, U in B5.
  assert (F : 1 # 8 < rnd 0.15) by (vm_compute; reflexivity).
  exists d. split; [|exact B5].
  cbn [Math_max]. unfold Qlt_bool.
  destruct (Qle_bool d (1 # 8)) eqn:Q; [|reflexivity].
  apply Qle_bool_iff in Q. exfalso. lra.
Qed.

Lemma loop_durations (n : nat) (scale : value (list number)) (s : Settings)
    (c r : Q) (rand : nat -> Q) (st st' : LoopState) :
  unit_draws rand -> 0 <= c <= 1 ->
  rhythmVariety s = Num r -> 0 <= r <= rnd 0.8 ->
  Forall (fun a => within (lit 0.15) (lit 0.35) (Note.duration a)) (notes st) ->
  Part000.loop n scale (Own s) (Num c) rand st = Normal st' ->
  Forall (fun a => within (lit 0.15) (lit 0.35) (Note.duration a)) (notes st').
Proof.
  intros Hu Hc Er Hr H0 L.
  apply (loop_invariant
           (fun x => Forall (fun a => within (lit 0.15) (lit 0.35) (Note.duration a)) (notes x))
           scale (Own s) (Num c) rand) with (n := n) (st := st); [|exact H0|exact L].
  intros x x' Hx E.
  destruct (iteration_inv _ _ _ _ _ _ E)
    as (l & jr & rv & nt & _ & _ & Hrv & Hn & _ & _ & _ & _ & _ & Hdur & _).
  simpl in Hrv. injection Hrv as <-.
  rewrite Hn. apply Forall_app. split; [assumption|].
  constructor; [|constructor].
  rewrite Hdur. cbn [ToNumber]. rewrite Er. unfold Math_random.
  destruct (duration_range (rand (draws x + 2)%nat) r c (Hu _) Hr Hc) as (d & -> & B).
  unfold within, lit. cbn [leb]. split; apply Qle_bool_iff; apply B.
Qed.

(** For a genre that is a plain tag, a creativity from 0 to 1 and draws
    in [0, 1), every duration [d] of a returned melody satisfies
    [0.15 <= d && d <= 0.35] as JavaScript evaluates it, so it is above
    the floor of 0.125, which never applies.  Both revisions. *)
Theorem durations_between_015_and_035 (p : GenerationParams.t) (rand : nat -> Q)
    (m : Melody.t) (a : Note.t) :
  unit_draws rand ->
  0 <= GenerationParams.creativity p <= 1 ->
  plain_tag (GenerationParams.genre p) ->
  outcome (Part000.generateMelody p rand) = Normal m \/
  outcome (Part001.generateMelody p rand) = Normal m ->
  In a (Melody.notes m) ->
  leb (lit 0.15) (Note.duration a) = true /\
  leb (Note.duration a) (lit 0.35) = true /\
  gtb (Note.duration a) (lit 0.125) = true.
Proof.
  intros Hu Hc Hg Ho Ha.
  assert (O : outcome (Part000.generateMelody p rand) = Normal m).
  { destruct Ho as [O|O]; [exact O|]. rewrite generateMelody_agree in O. exact O. }
  clear Ho. destruct (generate_inv p rand m O) as (lp & st & L & ->).
  cbn [melody_of Melody.notes] in Ha.
  destruct (resolved_settings_plain _ Hg) as (s & Es & _ & _).
  destruct (resolved_settings_variety _ s Es) as (r & Er & Hr).
  rewrite Es in L.
  pose proof (loop_durations _ _ s _ r rand (initial lp) st Hu Hc Er Hr (Forall_nil _) L) as F.
  rewrite Forall_forall in F. destruct (F a Ha) as [A B].
  split; [exact A|]. split; [exact B|].
  destruct (Note.duration a) as [d|[|]|]; try discriminate A; try discriminate B.
  unfold gtb, lit in *. cbn [ltb leb] in *. apply Qle_bool_iff in A. unfold Qlt_bool.
  destruct (Qle_bool d (rnd 0.125)) eqn:Q; [|reflexivity].
  apply Qle_bool_iff in Q. exfalso.
  assert (F1 : rnd 0.125 < rnd 0.15) by (vm_compute; reflexivity). lra.
Qed.

Lemma durations_witness :
  exists (m : Melody.t) (a : Note.t),
    outcome (Part001.generateMelody (example_params "electronic" 1 "A" 1) almost_one)
      = Normal m /\
    In a (Melody.notes m) /\
    leb (lit 0.15) (Note.duration a) = true /\
    leb (Note.duration a) (lit 0.35) = true /\
    gtb (Note.duration a) (lit 0.125) = true.
Proof.
  assert (E : exists m,
             outcome (Part001.generateMelody (example_params "electronic" 1 "A" 1) almost_one)
               = Normal m /\ exists a, nth_error (Melody.notes m) 0 = Some a).
  { vm_compute. eexists. split; [reflexivity|]. eexists. reflexivity. }
  destruct E as (m & O & a & Ha). exists m, a.
  apply nth_error_In in Ha.
  split; [exact O|]. split; [exact Ha|].
  apply (durations_between_015_and_035 (example_params "electronic" 1 "A" 1) almost_one m a).
  - exact unit_draws_almost_one.
  - split; vm_compute; discriminate.
  - reflexivity.
  - right. exact O.
  - exact Ha.
Defined.

(** ** Properties of the two players *)



















Lemma playable_of (c : Q) (a : Note.t) :
  regular a -> velocity_in_range c a -> playable 60 a.
Proof.
  intros (t & d & Et & Ed & Ht0 & _ & Hd) (v & Ev & Hv & _).
  exists t, d, (inject_Z v). repeat split; try assumption.
  - change 60 with (inject_Z 60). rewrite <- Zle_Qle. lia.
  - change 127 with (inject_Z 127). rewrite <- Zle_Qle. lia.
Qed.

Lemma generated_notes_playable (p : GenerationParams.t) (rand : nat -> Q) (m : Melody.t) :
  unit_draws rand ->
  0 <= GenerationParams.creativity p <= 1 ->
  plain_tag (GenerationParams.genre p) ->
  outcome (Part000.generateMelody p rand) = Normal m ->
  Forall (playable 60) (Melody.notes m) /\
  Forall regular (Melody.notes m) /\
  exists t1 : number, Timeline (lit 0) (Melody.notes m) t1.
Proof.
  intros Hu Hc Hg O.
  destruct (generate_inv p rand m O) as (lp & st & L & ->).
  cbn [melody_of Melody.notes].
  destruct (resolved_settings_plain _ Hg) as (s & Es & _ & Hrv).
  pose proof (loop_velocities _ _ _ _ rand (initial lp) st Hu Hc (Forall_nil _) L) as V.
  pose proof (loop_timeline _ _ _ _ rand (initial lp) st (lit 0) eq_refl L) as T.
  rewrite Es in L.
  assert (I : exists t, currentTime (initial lp) = Num t /\ 0 <= t /\ representable t).
  { exists 0. split; [vm_compute; reflexivity|]. split; [apply Qle_refl|].
    unfold representable. vm_compute. reflexivity. }
  destruct (loop_regular _ _ _ _ _ (initial lp) st Hrv I (Forall_nil _) L) as [_ R].
  split; [|split; [exact R | exists (currentTime st); exact T]].
  rewrite Forall_forall in *. intros a Ha.
  apply (playable_of (GenerationParams.creativity p)); [apply R | apply V]; exact Ha.
Qed.

(** What the generator returns meets what the two players need: for a
    genre that is a plain tag, a creativity from 0 to 1 and draws in
    [0, 1), every note of a returned melody has a finite onset that is
    not negative, a duration of at least an eighth and a velocity from
    60 to 127, and the notes are laid end to end from 0.  Both
    revisions. *)
Theorem generated_melodies_are_playable (p : GenerationParams.t) (rand : nat -> Q)
    (m : Melody.t) :
  unit_draws rand ->
  0 <= GenerationParams.creativity p <= 1 ->
  plain_tag (GenerationParams.genre p) ->
  outcome (Part000.generateMelody p rand) = Normal m \/
  outcome (Part001.generateMelody p rand) = Normal m ->
  Forall (playable 60) (Melody.notes m) /\
  Forall regular (Melody.notes m) /\
  exists t1 : number, Timeline (lit 0) (Melody.notes m) t1.
Proof.
  intros Hu Hc Hg Ho. apply (generated_notes_playable p rand m Hu Hc Hg).
  destruct Ho as [O|O]; [exact O|]. rewrite generateMelody_agree in O. exact O.
Qed.

Lemma generated_melodies_witness :
  exists m : Melody.t,
    outcome (Part000.generateMelody (example_params "jazz" 0.5 "Em" 1) halves) = Normal m /\
    Forall (playable 60) (Melody.notes m) /\
    Forall regular (Melody.notes m) /\
    exists t1 : number, Timeline (lit 0) (Melody.notes m) t1.
Proof.
  assert (E : exists m, outcome (Part000.generateMelody (example_params "jazz" 0.5 "Em" 1) halves)
                        = Normal m).
  { vm_compute. eexists. reflexivity. }
  destruct E as (m & O). exists m. split; [exact O|].
  apply (generated_melodies_are_playable (example_params "jazz" 0.5 "Em" 1) halves m).
  - exact unit_draws_halves.
  - split; vm_compute; discriminate.
  - reflexivity.
  - left. exact O.
Defined.

(** [getOscillatorType] is the same in the two revisions.  Its table has
    the keys of [genreSettings].  A genre that is a plain tag gets
    ['sine'], ['triangle'] or ['square'], and ['sine'] when it is in no
    table; a genre that names a member of [Object.prototype] gets that
    member, not a wave form. *)
Theorem oscillator_type_by_genre (genre : string) :
  Part001.getOscillatorType genre = Part000.getOscillatorType genre /\
  (assoc Part000.typeMap genre = None <-> assoc Part000.genreSettings genre = None) /\
  (plain_tag genre ->
   (Part000.getOscillatorType genre = Own "sine"%string \/
    Part000.getOscillatorType genre = Own "triangle"%string \/
    Part000.getOscillatorType genre = Own "square"%string) /\
   (assoc Part000.genreSettings genre = None ->
    Part000.getOscillatorType genre = Own "sine"%string)) /\
  (forall m : member,
     assoc Object_prototype genre = Some m ->
     Part000.getOscillatorType genre = Inherited m).
Proof.
  split; [reflexivity|]. split; [|split].
  - unfold Part000.typeMap, Part000.genreSettings. cbn [assoc].
    repeat (destruct (String.eqb genre _); [split; discriminate|]). tauto.
  - intros Hp. unfold Part000.getOscillatorType, get. rewrite Hp. split.
    + unfold Part000.typeMap. cbn [assoc].
      repeat (destruct (String.eqb genre _); [cbn [or_else]; tauto|]). cbn [or_else]. tauto.
    + unfold Part000.typeMap, Part000.genreSettings. cbn [assoc].
      repeat (destruct (String.eqb genre _); [discriminate|]). reflexivity.
  - intros m Hm. unfold Part000.getOscillatorType, get.
    assert (E : assoc Part000.typeMap genre = None).
    { unfold Object_prototype in Hm. cbn [assoc] in Hm.
      repeat (destruct (String.eqb genre _) eqn:E in Hm;
              [apply String.eqb_eq in E; subst genre; reflexivity | clear E]).
      discriminate. }
    rewrite E, Hm. reflexivity.
Qed.

(** ** Properties of [MIDIVisualizer] *)

(** One pass of the loop when the genre resolved to an inherited member:
    [jumpRange] and [rhythmVariety] are [undefined]. *)
Lemma iteration_inherited (scale : value (list number)) (mb : member) (c : Q)
    (rand : nat -> Q) (st st' : LoopState) :
  Part000.iteration scale (Inherited mb) (Num c) rand st = Normal st' ->
  exists n : Note.t,
    notes st' = notes st ++ [n] /\
    Note.time n = currentTime st /\
    currentTime st' = NaN /\
    Note.pitch n = NaN /\ Note.duration n = NaN.
Proof.
  intros E.
  destruct (iteration_inv _ _ _ _ _ _ E)
    as (l & jr & rv & nt & _ & Hj & Hrv & Hn & Hct & _ & _ & Htime & _ & Hdur & Hp).
  cbn [field] in Hj, Hrv. injection Hj as <-. injection Hrv as <-.
  assert (D : Note.duration nt = NaN).
  { rewrite Hdur. unfold Math_random, lit. reflexivity. }
  exists nt. split; [exact Hn|]. split; [exact Htime|]. split; [|split; [|exact D]].
  - rewrite Hct, D. destruct (currentTime st); reflexivity.
  - rewrite Hp. unfold Math_random, lit. cbn [ToNumber sub mul Math_floor].
    destruct (strict_eq _ _); cbn [add sub Math_min Math_max Array_at ToNumber]; reflexivity.
Qed.

Lemma loop_inherited (n : nat) (scale : value (list number)) (mb : member) (c : Q)
    (rand : nat -> Q) (st st' : LoopState) :
  Forall (fun a => Note.pitch a = NaN /\ Note.duration a = NaN) (notes st) ->
  Part000.loop n scale (Inherited mb) (Num c) rand st = Normal st' ->
  Forall (fun a => Note.pitch a = NaN /\ Note.duration a = NaN) (notes st').
Proof.
  intros H0 L.
  apply (loop_invariant
           (fun x => Forall (fun a => Note.pitch a = NaN /\ Note.duration a = NaN) (notes x))
           scale (Inherited mb) (Num c) rand) with (n := n) (st := st); [|exact H0|exact L].
  intros x x' Hx E.
  destruct (iteration_inherited _ _ _ _ _ _ E) as (nt & Hn & _ & _ & Hp & Hd).
  rewrite Hn. apply Forall_app. split; [assumption|].
  constructor; [split; assumption | constructor].
Qed.

Lemma inherited_genre_settings (genre : string) (mb : member) :
  assoc Object_prototype genre = Some mb -> resolved_settings genre = Inherited mb.
Proof.
  intros Hg.
  destruct (resolved_settings_cases genre) as [(s & Es & _)|(mb' & Es & Hm)].
  - exfalso. revert Es. unfold resolved_settings, get. rewrite Hg.
    destruct (assoc Part000.genreSettings genre) as [s'|] eqn:A; [|discriminate].
    exfalso. apply assoc_In in A. revert A Hg. unfold Part000.genreSettings. cbn [In].
    intros A. repeat (destruct A as [A|A]; [injection A as <- _; discriminate|]).
    contradiction.
  - rewrite Es. congruence.
Qed.

(** When the genre names a member of [Object.prototype], every note of a
    returned melody has the pitch [NaN] and the duration [NaN], whatever
    the key, the creativity and the draws; [MIDIVisualizer] then draws
    one bar per note with the height [NaN], no colour and the tooltip
    text [NaN] without a note name.  Both revisions of the generator. *)
Theorem inherited_genre_gives_blank_bars (p : GenerationParams.t) (rand : nat -> Q)
    (mb : member) (m : Melody.t) (isPlaying : bool) :
  assoc Object_prototype (GenerationParams.genre p) = Some mb ->
  outcome (Part000.generateMelody p rand) = Normal m \/
  outcome (Part001.generateMelody p rand) = Normal m ->
  Forall (fun a => Note.pitch a = NaN /\ Note.duration a = NaN) (Melody.notes m) /\
  match MIDIVisualizer.render (Some m) isPlaying with
  | MIDIVisualizer.Bars bars =>
      List.length bars = List.length (Melody.notes m) /\
      Forall (fun b => MIDIVisualizer.height b = NaN /\
                       MIDIVisualizer.backgroundColor b = None /\
                       MIDIVisualizer.tooltip b = (None, NaN)) bars
  | MIDIVisualizer.Placeholder => False
  end.
Proof.
  intros Hg Ho.
  assert (O : outcome (Part000.generateMelody p rand) = Normal m).
  { destruct Ho as [O|O]; [exact O|]. rewrite generateMelody_agree in O. exact O. }
  clear Ho. destruct (generate_inv p rand m O) as (lp & st & L & ->).
  rewrite (inherited_genre_settings _ mb Hg) in L.
  pose proof (loop_inherited _ _ _ _ rand (initial lp) st (Forall_nil _) L) as F.
  cbn [melody_of Melody.notes MIDIVisualizer.render]. split; [exact F|].
  split; [apply length_map|].
  apply Forall_map. revert F. apply Forall_impl. intros a [Hp Hd].
  unfold MIDIVisualizer.bar, MIDIVisualizer.getNoteColor. rewrite Hp. repeat split.
Qed.

Lemma inherited_genre_witness :
  exists m : Melody.t,
    outcome (Part000.generateMelody (example_params "valueOf" 0.5 "G" 1) halves) = Normal m /\
    Melody.notes m <> [] /\
    Forall (fun a => Note.pitch a = NaN /\ Note.duration a = NaN) (Melody.notes m).
Proof.
  assert (E : exists m,
             outcome (Part000.generateMelody (example_params "valueOf" 0.5 "G" 1) halves)
               = Normal m /\ Melody.notes m <> []).
  { vm_compute. eexists. split; [reflexivity | discriminate]. }
  destruct E as (m & O & N). exists m. split; [exact O|]. split; [exact N|].
  apply (inherited_genre_gives_blank_bars (example_params "valueOf" 0.5 "G" 1) halves
           (BuiltinFunction "valueOf" 0) m true).
  - reflexivity.
  - left. exact O.
Defined.

Lemma bar_reads_pitch (isPlaying : bool) (a b : Note.t) :
  Note.pitch a = Note.pitch b -> MIDIVisualizer.bar isPlaying a = MIDIVisualizer.bar isPlaying b.
Proof. intros E. unfold MIDIVisualizer.bar. rewrite E. reflexivity. Qed.

Lemma below_128 (P : Z -> Prop) :
  (forall k : nat, (k < 128)%nat -> P (Z.of_nat k)) ->
  forall z : Z, (0 <= z <= 127)%Z -> P z.
Proof.
  intros H z Hz. rewrite <- (Z2Nat.id z) by lia. apply H. lia.
Qed.

Ltac bar_case :=
  repeat split; try (vm_compute; reflexivity); try (vm_compute; discriminate);
  try (intros _; vm_compute; reflexivity); try (intros _; lia);
  try (vm_compute; intros; discriminate); try (intros; lia).

(** The bar of each of the 128 MIDI pitches, by evaluation. *)
Lemma bar_of_pitched (isPlaying : bool) (z : Z) :
  (0 <= z <= 127)%Z ->
  let b := MIDIVisualizer.bar isPlaying (pitched z) in
  MIDIVisualizer.backgroundColor b = nth_error MIDIVisualizer.colors (Z.to_nat (z mod 12)) /\
  MIDIVisualizer.backgroundColor b <> None /\
  MIDIVisualizer.tooltip b =
    (nth_error MIDIVisualizer.noteNames (Z.to_nat (z mod 12)), Num (inject_Z (z / 12))) /\
  fst (MIDIVisualizer.tooltip b) <> None /\
  leb (lit 10) (MIDIVisualizer.height b) = true /\
  (leb (MIDIVisualizer.height b) (lit 100) = true <-> (z <= 80)%Z).
Proof.
  revert z. apply below_128. intros k Hk.
  do 128 (destruct k as [|k]; [bar_case|]). lia.
Qed.

(** The bar of a note whose pitch is an integer [z] from 0 to 127: its
    colour and its note name are entry [z mod 12] of the two tables, so
    both are defined and pitches an octave apart share them; the number
    after the name is [z / 12] rounded down; the height is at least 10
    per cent, and it is at most 100 per cent exactly when [z <= 80]. *)
Theorem bars_show_pitch_class_and_octave (isPlaying : bool) (note : Note.t) (z : Z) :
  Note.pitch note = Num (inject_Z z) ->
  (0 <= z <= 127)%Z ->
  MIDIVisualizer.backgroundColor (MIDIVisualizer.bar isPlaying note) =
    nth_error MIDIVisualizer.colors (Z.to_nat (z mod 12)) /\
  MIDIVisualizer.backgroundColor (MIDIVisualizer.bar isPlaying note) <> None /\
  MIDIVisualizer.tooltip (MIDIVisualizer.bar isPlaying note) =
    (nth_error MIDIVisualizer.noteNames (Z.to_nat (z mod 12)), Num (inject_Z (z / 12))) /\
  fst (MIDIVisualizer.tooltip (MIDIVisualizer.bar isPlaying note)) <> None /\
  leb (lit 10) (MIDIVisualizer.height (MIDIVisualizer.bar isPlaying note)) = true /\
  (leb (MIDIVisualizer.height (MIDIVisualizer.bar isPlaying note)) (lit 100) = true <->
   (z <= 80)%Z).
Proof.
  intros Hp Hz.
  rewrite (bar_reads_pitch isPlaying note (pitched z) Hp).
  apply (bar_of_pitched isPlaying z Hz).
Qed.

Lemma bars_witness :
  MIDIVisualizer.backgroundColor (MIDIVisualizer.bar true (pitched 93)) = Some "#0ea5e9"%string /\
  MIDIVisualizer.tooltip (MIDIVisualizer.bar true (pitched 93)) =
    (Some "A"%string, Num (inject_Z 7)) /\
  leb (MIDIVisualizer.height (MIDIVisualizer.bar true (pitched 93))) (lit 100) = false.
Proof.
  destruct (bars_show_pitch_class_and_octave true (pitched 93) 93 eq_refl)
    as (C & _ & T & _ & _ & H); [lia|].
  split; [exact C|]. split; [exact T|].
  destruct (leb (MIDIVisualizer.height (MIDIVisualizer.bar true (pitched 93))) (lit 100));
    [|reflexivity].
  exfalso. assert (93 <= 80)%Z by (apply H; reflexivity). lia.
Defined.

(** ** Properties of [downloadMIDI] *)

Lemma without_absent (n : nat) (l : list nat) :
  Forall (fun m => (m < n)%nat) l -> DOM.without n l = l.
Proof.
  induction 1 as [|m l Hm _ IH]; [reflexivity|].
  cbn [DOM.without]. destruct (Nat.eqb_spec m n) as [E|_]; [lia|].
  rewrite IH. reflexivity.
Qed.

Lemma without_last (n : nat) (l : list nat) :
  Forall (fun m => (m < n)%nat) l -> DOM.without n (l ++ [n]) = l.
Proof.
  induction 1 as [|m l Hm _ IH]; cbn [DOM.without app].
  - rewrite Nat.eqb_refl. reflexivity.
  - destruct (Nat.eqb_spec m n) as [E|_]; [lia|]. rewrite IH. reflexivity.
Qed.

Lemma existsb_last (n : nat) (l : list nat) : existsb (Nat.eqb n) (l ++ [n]) = true.
Proof.
  rewrite existsb_app. cbn [existsb]. rewrite Nat.eqb_refl.
  rewrite orb_true_r. reflexivity.
Qed.

Lemma filter_older (n : nat) (l : list (nat * Blob)) :
  Forall (fun e => (fst e < n)%nat) l ->
  filter (fun e => negb (Nat.eqb (fst e) n)) l = l.
Proof.
  induction 1 as [|e l He _ IH]; [reflexivity|].
  cbn [filter]. destruct (Nat.eqb_spec (fst e) n) as [E|_]; [lia|].
  cbn [negb]. rewrite IH. reflexivity.
Qed.

Lemma filter_newest (n : nat) (b : Blob) (l : list (nat * Blob)) :
  Forall (fun e => (fst e < n)%nat) l ->
  filter (fun e => negb (Nat.eqb (fst e) n)) ((n, b) :: l) = l.
Proof.
  intros H. cbn [filter fst]. rewrite Nat.eqb_refl. cbn [negb]. apply filter_older, H.
Qed.

Lemma downloadMIDI_agree (melody : Melody.t) (filename : string) (pg : Page) :
  Part001.downloadMIDI melody filename pg = Part000.downloadMIDI melody filename pg.
Proof. reflexivity. Qed.

Lemma downloadMIDI_run (melody : Melody.t) (filename : string) (pg : Page) :
  well_formed pg ->
  exists bytes : list Byte.byte,
    Part000.createSimpleMIDI melody = Normal bytes /\
    Part000.downloadMIDI melody filename pg =
      ({| body := body pg;
          created := S (created pg);
          objectURLs := objectURLs pg;
          issued := S (issued pg);
          downloads := downloads pg ++ [(filename, Some (midi_blob bytes))] |},
       DOM.Returns tt).
Proof.
  intros [Hb Hu]. eexists. split; [reflexivity|].
  unfold Part000.downloadMIDI, DOM.bind, DOM.lift, DOM.createObjectURL, DOM.createElement,
    DOM.appendChild, DOM.click, DOM.removeChild, DOM.revokeObjectURL.
  cbn [Part000.createSimpleMIDI Uint8Array_new Uint8Array_set JS.bind List.length repeat
       Nat.add Nat.leb firstn skipn app
       body created objectURLs issued downloads node href download DOM.lookup fst snd].
  rewrite (without_absent _ _ Hb), existsb_last, (without_last _ _ Hb).
  rewrite Nat.eqb_refl. cbn [body created objectURLs issued downloads].
  rewrite (filter_newest _ _ _ Hu).
  reflexivity.
Qed.

(** [downloadMIDI] on a well-formed page, for every melody and file
    name, in both revisions: it returns normally; afterwards
    [document.body] has the children it had and the live object URLs are
    those there were (the link was removed, the URL revoked); exactly
    one download was started, under the file name given, and its
    content is the blob of type ['audio/midi'] holding the bytes of
    [createSimpleMIDI], which the link still resolved to when it was
    clicked. *)
Theorem download_leaves_the_page_as_it_was (melody : Melody.t) (filename : string)
    (pg : Page) :
  well_formed pg ->
  exists (bytes : list Byte.byte) (pg' : Page),
    Part000.downloadMIDI melody filename pg = (pg', DOM.Returns tt) /\
    Part001.downloadMIDI melody filename pg = (pg', DOM.Returns tt) /\
    Part000.createSimpleMIDI melody = Normal bytes /\
    body pg' = body pg /\
    objectURLs pg' = objectURLs pg /\
    downloads pg' = downloads pg ++ [(filename, Some (midi_blob bytes))] /\
    well_formed pg'.
Proof.
  intros W. destruct (downloadMIDI_run melody filename pg W) as (bytes & C & R).
  pose proof (downloadMIDI_agree melody filename pg) as A. rewrite R in A.
  exists bytes. eexists.
  split; [exact R|]. split; [exact A|]. split; [exact C|].
  cbn [body objectURLs downloads]. repeat split.
  - destruct W as [Hb _]. revert Hb. cbn [created body]. apply Forall_impl. intros; lia.
  - destruct W as [_ Hu]. revert Hu. cbn [issued objectURLs]. apply Forall_impl. intros; lia.
Qed.

Lemma download_witness :
  exists (bytes : list Byte.byte) (pg' : Page),
    Part000.downloadMIDI empty_melody "a.mid" example_page = (pg', DOM.Returns tt) /\
    Part001.downloadMIDI empty_melody "a.mid" example_page = (pg', DOM.Returns tt) /\
    Part000.createSimpleMIDI empty_melody = Normal bytes /\
    body pg' = body example_page /\
    objectURLs pg' = objectURLs example_page /\
    downloads pg' = downloads example_page ++ [("a.mid"%string, Some (midi_blob bytes))] /\
    well_formed pg'.
Proof.
  apply (download_leaves_the_page_as_it_was empty_melody "a.mid" example_page).
  split; repeat constructor.
Defined.

(** ** Properties of [MusicGenerator] *)

Lemma progressUpdater_bounds (u q : Q) :
  0 <= u < 1 -> 0 <= q <= 105 ->
  exists q',
    fst (MusicGenerator.progressUpdater (Num u) (Num q)) = Num q' /\ 0 <= q' <= 105 /\
    (snd (MusicGenerator.progressUpdater (Num u) (Num q)) = true ->
     fst (MusicGenerator.progressUpdater (Num u) (Num q)) = lit 90).
Proof.
  intros Hu Hq. unfold MusicGenerator.progressUpdater, geb, lit. cbn [leb].
  assert (E90 : rnd 90 = 90) by (vm_compute; reflexivity).
  assert (E15 : rnd 15 = 15) by (vm_compute; reflexivity).
  rewrite E90, E15.
  destruct (Qle_bool 90 q) eqn:Q; cbn [fst snd].
  - exists 90. split; [reflexivity|]. split; [lra | reflexivity].
  - cbn [mul add]. eexists. split; [reflexivity|]. split; [|discriminate].
    assert (L : q < 90).
    { apply Qnot_le_lt. intros C. apply Qle_bool_iff in C. congruence. }
    assert (A : 0 <= rnd (u * 15) <= 15).
    { split; [apply rnd_nonneg; lra | apply rnd_le_const; [reflexivity | lra]]. }
    split; [apply rnd_nonneg; lra | apply rnd_le_const; [vm_compute; reflexivity | lra]].
Qed.

Section Interval.

Import MusicGenerator.

Lemma intervalFires_inv (u : Q) (c : Component) :
  0 <= u < 1 -> interval_invariant c ->
  interval_invariant (intervalFires u c) /\
  isGenerating (state (intervalFires u c)) = isGenerating (state c) /\
  promise (intervalFires u c) = promise c /\
  actions (intervalFires u c) = actions c.
Proof.
  intros Hu [(q & Eq & Hq) Hc]. unfold interval_invariant, intervalFires.
  destruct (progressInterval c) eqn:Live.
  - cbn [state progressInterval promise timeout actions setGenerationProgress
         generationProgress isGenerating currentMelody].
    rewrite Eq. destruct (progressUpdater_bounds u q Hu Hq) as (q' & E & B & C).
    repeat split; try reflexivity.
    + exists q'. split; assumption.
    + intros F. apply C. destruct (snd (progressUpdater (Num u) (Num q))); [reflexivity|].
      discriminate F.
  - repeat split; try reflexivity;
      [exists q; split; assumption | intros _; apply Hc; reflexivity].
Qed.

Lemma intervalFiresEach_inv (us : list Q) (c : Component) :
  Forall (fun u => 0 <= u < 1) us -> interval_invariant c ->
  interval_invariant (intervalFiresEach us c) /\
  isGenerating (state (intervalFiresEach us c)) = isGenerating (state c) /\
  promise (intervalFiresEach us c) = promise c /\
  actions (intervalFiresEach us c) = actions c.
Proof.
  intros H. revert c. induction H as [|u us Hu _ IH]; intros c Hc.
  - repeat split; try reflexivity; apply Hc.
  - destruct (intervalFires_inv u c Hu Hc) as (A & E1 & E2 & E3).
    unfold intervalFiresEach. cbn [fold_left]. fold (intervalFiresEach us (intervalFires u c)).
    destruct (IH (intervalFires u c) A) as (A' & F1 & F2 & F3).
    rewrite F1, F2, F3, E1, E2, E3. repeat split; try reflexivity; apply A'.
Qed.

Lemma intervalFiresEach_progress (us : list Q) (c : Component) :
  (generationProgress (state (intervalFiresEach us c)), progressInterval (intervalFiresEach us c))
  = progress_after us (generationProgress (state c), progressInterval c).
Proof.
  revert c. induction us as [|u us IH]; intros c; [reflexivity|].
  unfold intervalFiresEach, progress_after. cbn [fold_left].
  fold (intervalFiresEach us (intervalFires u c)).
  fold (progress_after us
          (if snd (generationProgress (state c), progressInterval c)
           then (fst (progressUpdater (Num u) (fst (generationProgress (state c), progressInterval c))),
                 negb (snd (progressUpdater (Num u)
                              (fst (generationProgress (state c), progressInterval c)))))
           else (generationProgress (state c), progressInterval c))).
  rewrite IH. f_equal. unfold intervalFires. cbn [fst snd].
  destruct (progressInterval c) eqn:Live; [reflexivity|]. rewrite Live. reflexivity.
Qed.

Lemma handleGenerate_invariant (r : Revision) (rand : nat -> Q) (c : Component) :
  interval_invariant (handleGenerate r rand c).
Proof.
  split; [|discriminate]. exists 0. split; [reflexivity | lra].
Qed.

End Interval.

Lemma Math_round_bounds (q : Q) :
  0 <= q <= 105 -> exists k : Z, Math_round (Num q) = Num (inject_Z k) /\ (0 <= k <= 105)%Z.
Proof.
  intros Hq. cbn [Math_round]. eexists. split; [reflexivity|].
  split.
  - assert (0 <= q + (1 # 2)) as H0 by lra.
    apply Qfloor_resp_le in H0. exact H0.
  - assert (q + (1 # 2) <= 105 + (1 # 2)) as H1 by lra.
    apply Qfloor_resp_le in H1. exact H1.
Qed.

(** While a generation is pending, however often the interval fires and
    whatever it draws in [0, 1): the progress is a finite number from 0
    to 105 and the percentage shown is an integer from 0 to 105; once
    the interval has cleared itself the progress is 90;
    [isGenerating] stays true.  The bound of 100 does not hold: seven
    firings that draw [1 - 2^-52] take the progress above 100. *)
Theorem progress_stays_between_0_and_105 (r : MusicGenerator.Revision) (rand : nat -> Q)
    (c : MusicGenerator.Component) :
  (forall us : list Q,
     Forall (fun u => 0 <= u < 1) us ->
     (exists (q : Q) (k : Z),
        MusicGenerator.generationProgress
          (MusicGenerator.state
             (intervalFiresEach us (MusicGenerator.handleGenerate r rand c))) = Num q /\
        0 <= q <= 105 /\
        MusicGenerator.progressLabel
          (MusicGenerator.state
             (intervalFiresEach us (MusicGenerator.handleGenerate r rand c)))
          = Num (inject_Z k) /\
        (0 <= k <= 105)%Z) /\
     (MusicGenerator.progressInterval
        (intervalFiresEach us (MusicGenerator.handleGenerate r rand c)) = false ->
      MusicGenerator.generationProgress
        (MusicGenerator.state
           (intervalFiresEach us (MusicGenerator.handleGenerate r rand c))) = lit 90) /\
     MusicGenerator.isGenerating
       (MusicGenerator.state
          (intervalFiresEach us (MusicGenerator.handleGenerate r rand c))) = true) /\
  Forall (fun u => 0 <= u < 1) (repeat (almost_one 0) 7) /\
  ltb (lit 100)
      (MusicGenerator.generationProgress
         (MusicGenerator.state
            (intervalFiresEach (repeat (almost_one 0) 7)
               (MusicGenerator.handleGenerate r rand c)))) = true.
Proof.
  split; [|split].
  - intros us H.
    destruct (intervalFiresEach_inv us (MusicGenerator.handleGenerate r rand c) H
                (handleGenerate_invariant r rand c)) as ([A B] & E & _).
    destruct A as (q & Eq & Hq). destruct (Math_round_bounds q Hq) as (k & Ek & Hk).
    split; [|split; [exact B | exact E]].
    exists q, k. unfold MusicGenerator.progressLabel. rewrite Eq.
    split; [reflexivity|]. split; [exact Hq|]. split; [exact Ek | exact Hk].
  - apply Forall_forall. intros u Hu. apply repeat_spec in Hu. subst u.
    vm_compute. split; [discriminate | reflexivity].
  - pose proof (intervalFiresEach_progress (repeat (almost_one 0) 7)
                  (MusicGenerator.handleGenerate r rand c)) as E.
    apply (f_equal fst) in E. cbn [fst] in E. rewrite E.
    vm_compute. reflexivity.
Qed.

Lemma selectable_plain (s : MusicGenerator.State) :
  selectable s ->
  plain_tag (MusicGenerator.genre s) /\ plain_tag (MusicGenerator.keySignature s).
Proof.
  intros (Hg & Hk & _). cbn [In] in Hg, Hk. split.
  - repeat (destruct Hg as [<-|Hg]; [reflexivity|]). contradiction.
  - repeat (destruct Hk as [<-|Hk]; [reflexivity|]). contradiction.
Qed.

(** A generation started from values the controls offer cannot fail, in
    either revision: whatever the draws in [0, 1) and however often the
    interval fired meanwhile, the promise settles with a melody; the
    component then shows 100 with [isGenerating] still true and the
    interval cleared, and once the timeout of 500 ms has fired it holds
    the melody, [isGenerating] is false, the progress is 0 and the one
    toast shown is the success message.  The melody has four notes per
    bar, 32 to 256 in all, and every note is playable. *)
Theorem generation_from_the_controls_succeeds (r : MusicGenerator.Revision)
    (rand : nat -> Q) (c : MusicGenerator.Component) (us : list Q) :
  selectable (MusicGenerator.state c) ->
  unit_draws rand ->
  Forall (fun u => 0 <= u < 1) us ->
  let settled :=
    MusicGenerator.promiseSettles
      (intervalFiresEach us (MusicGenerator.handleGenerate r rand c)) in
  let shown := MusicGenerator.timeoutFires settled in
  exists m : Melody.t,
    MusicGenerator.promise (MusicGenerator.handleGenerate r rand c) =
      Some (MusicGenerator.generateMelody r
              {| GenerationParams.genre := MusicGenerator.genre (MusicGenerator.state c);
                 GenerationParams.creativity :=
                   MusicGenerator.creativity (MusicGenerator.state c);
                 GenerationParams.tempo := MusicGenerator.tempo (MusicGenerator.state c);
                 GenerationParams.key :=
                   MusicGenerator.keySignature (MusicGenerator.state c);
                 GenerationParams.duration :=
                   MusicGenerator.duration (MusicGenerator.state c) |} rand) /\
    outcome (MusicGenerator.generateMelody r
               {| GenerationParams.genre := MusicGenerator.genre (MusicGenerator.state c);
                  GenerationParams.creativity :=
                    MusicGenerator.creativity (MusicGenerator.state c);
                  GenerationParams.tempo := MusicGenerator.tempo (MusicGenerator.state c);
                  GenerationParams.key :=
                    MusicGenerator.keySignature (MusicGenerator.state c);
                  GenerationParams.duration :=
                    MusicGenerator.duration (MusicGenerator.state c) |} rand) = Normal m /\
    MusicGenerator.generationProgress (MusicGenerator.state settled) = lit 100 /\
    MusicGenerator.isGenerating (MusicGenerator.state settled) = true /\
    MusicGenerator.progressInterval settled = false /\
    MusicGenerator.currentMelody (MusicGenerator.state shown) = Some m /\
    MusicGenerator.isGenerating (MusicGenerator.state shown) = false /\
    MusicGenerator.generationProgress (MusicGenerator.state shown) = lit 0 /\
    MusicGenerator.actions shown =
      MusicGenerator.actions c ++ [MusicGenerator.ShowToast MusicGenerator.CompositionGenerated] /\
    Z.of_nat (List.length (Melody.notes m)) =
      (4 * MusicGenerator.duration (MusicGenerator.state c))%Z /\
    (32 <= List.length (Melody.notes m) <= 256)%nat /\
    Forall (playable 60) (Melody.notes m).
Proof.
  intros Hs Hu Hus settled shown.
  destruct (selectable_plain _ Hs) as [Pg Pk].
  destruct Hs as (_ & _ & Hc & _ & Hd).
  set (p := {| GenerationParams.genre := MusicGenerator.genre (MusicGenerator.state c);
               GenerationParams.creativity :=
                 MusicGenerator.creativity (MusicGenerator.state c);
               GenerationParams.tempo := MusicGenerator.tempo (MusicGenerator.state c);
               GenerationParams.key := MusicGenerator.keySignature (MusicGenerator.state c);
               GenerationParams.duration :=
                 MusicGenerator.duration (MusicGenerator.state c) |}) in *.
  assert (G : MusicGenerator.generateMelody r p rand = Part000.generateMelody p rand).
  { destruct r; [reflexivity | apply generateMelody_agree]. }
  destruct (generate_total p rand Pk) as (m & O).
  destruct (generate_inv p rand m O) as (lp & st & L & Em).
  assert (Len : List.length (Melody.notes m) =
                Z.to_nat (MusicGenerator.duration (MusicGenerator.state c) * 4)).
  { rewrite Em. cbn [melody_of Melody.notes]. rewrite (loop_length _ _ _ _ _ _ _ L). reflexivity. }
  destruct (intervalFiresEach_inv us (MusicGenerator.handleGenerate r rand c) Hus
              (handleGenerate_invariant r rand c)) as (_ & E1 & E2 & E4).
  assert (S1 : settled =
               {| MusicGenerator.state :=
                    MusicGenerator.setGenerationProgress (fun _ => lit 100)
                      (MusicGenerator.state
                         (intervalFiresEach us (MusicGenerator.handleGenerate r rand c)));
                  MusicGenerator.progressInterval := false;
                  MusicGenerator.promise := None;
                  MusicGenerator.timeout := Some m;
                  MusicGenerator.actions := MusicGenerator.actions c |}).
  { unfold settled, MusicGenerator.promiseSettles. rewrite E2, E4.
    cbn [MusicGenerator.handleGenerate MusicGenerator.promise MusicGenerator.actions].
    fold p. rewrite G, O. reflexivity. }
  exists m. split; [reflexivity|]. rewrite G. split; [exact O|].
  unfold shown. rewrite S1.
  cbn [MusicGenerator.timeoutFires MusicGenerator.timeout MusicGenerator.state
       MusicGenerator.progressInterval MusicGenerator.actions
       MusicGenerator.setGenerationProgress MusicGenerator.setIsGenerating
       MusicGenerator.setCurrentMelody MusicGenerator.generationProgress
       MusicGenerator.isGenerating MusicGenerator.currentMelody].
  rewrite E1.
  cbn [MusicGenerator.handleGenerate MusicGenerator.state MusicGenerator.setGenerationProgress
       MusicGenerator.setIsGenerating MusicGenerator.isGenerating].
  repeat (split; [reflexivity|]).
  split; [rewrite Len; lia|]. split; [rewrite Len; lia|].
  apply (generated_notes_playable p rand m Hu);
    [cbn [GenerationParams.creativity p]; lra | exact Pg | exact O].
Qed.

Lemma generation_from_the_controls_witness :
  exists m : Melody.t,
    MusicGenerator.currentMelody
      (MusicGenerator.state
         (MusicGenerator.timeoutFires
            (MusicGenerator.promiseSettles
               (intervalFiresEach [1 # 2; 1 # 4]
                  (MusicGenerator.handleGenerate MusicGenerator.second halves
                     MusicGenerator.mounted))))) = Some m /\
    List.length (Melody.notes m) = 128%nat.
Proof.
  destruct (generation_from_the_controls_succeeds MusicGenerator.second halves
              MusicGenerator.mounted [1 # 2; 1 # 4])
    as (m & _ & _ & _ & _ & _ & C & _ & _ & _ & N & _).
  - repeat split; cbn; try lia; try (vm_compute; discriminate); auto.
  - exact unit_draws_halves.
  - repeat constructor; vm_compute; discriminate.
  - exists m. split; [exact C|]. cbn in N. lia.
Defined.

(** From a component that holds a melody and is not playing, one click
    on Play.  Built with the first revision the handler returns normally
    and sets [isPlaying] whatever happened in [playMIDI], whose promise
    it drops: also when there is no audio element or no Web Audio, and
    then no oscillator was scheduled.  Built with the second revision
    [isPlaying] is set exactly when [playMIDI] returned, that is when
    there is no audio element or Web Audio is present; with an audio
    element and without Web Audio the handler throws a [TypeError] and
    leaves the state as it was. *)
Theorem play_button_ignores_how_playback_went (w : Browser) (audio : option HTMLAudioElement)
    (c : MusicGenerator.Component) (melody : Melody.t) :
  MusicGenerator.currentMelody (MusicGenerator.state c) = Some melody ->
  MusicGenerator.isPlaying (MusicGenerator.state c) = false ->
  (MusicGenerator.isPlaying
     (MusicGenerator.state
        (fst (MusicGenerator.handlePlayPause MusicGenerator.first w audio c))) = true /\
   snd (MusicGenerator.handlePlayPause MusicGenerator.first w audio c) = Normal tt /\
   (audio = None \/ hasAudioContext w = false ->
    voices (fst (Part000.playMIDI w melody audio)) = [])) /\
  (MusicGenerator.isPlaying
     (MusicGenerator.state
        (fst (MusicGenerator.handlePlayPause MusicGenerator.second w audio c))) = true <->
   audio = None \/ hasAudioContext w = true) /\
  (audio <> None -> hasAudioContext w = false ->
   snd (MusicGenerator.handlePlayPause MusicGenerator.second w audio c) = Throw TypeError /\
   MusicGenerator.state
     (fst (MusicGenerator.handlePlayPause MusicGenerator.second w audio c)) =
   MusicGenerator.state c).
Proof.
  intros Hm Hp. unfold MusicGenerator.handlePlayPause. rewrite Hm, Hp.
  cbn [MusicGenerator.playMIDI fst snd].
  split; [|split].
  - repeat split. intros [->|H]; [reflexivity|].
    unfold Part000.playMIDI. destruct audio; [|reflexivity]. rewrite H. reflexivity.
  - unfold Part001.playMIDI. destruct audio as [a|].
    + destruct (hasAudioContext w);
        cbn [fst snd MusicGenerator.state MusicGenerator.setIsPlaying MusicGenerator.isPlaying].
      * split; [intros _; right; reflexivity | reflexivity].
      * rewrite Hp. split; [discriminate | intros [H|H]; discriminate H].
    + cbn [fst MusicGenerator.state MusicGenerator.setIsPlaying MusicGenerator.isPlaying].
      split; [intros _; left; reflexivity | reflexivity].
  - intros Ha Hc. unfold Part001.playMIDI. destruct audio as [a|]; [|contradiction].
    rewrite Hc. cbn [fst snd]. split; reflexivity.
Qed.

Lemma play_button_witness :
  MusicGenerator.isPlaying
    (MusicGenerator.state
       (fst (MusicGenerator.handlePlayPause MusicGenerator.first
               {| hasAudioContext := false; suspended := false; now := lit 0;
                  Math_pow := fun _ _ => NaN |}
               (Some AudioElement) (with_melody two_notes)))) = true /\
  snd (MusicGenerator.handlePlayPause MusicGenerator.second
         {| hasAudioContext := false; suspended := false; now := lit 0;
            Math_pow := fun _ _ => NaN |}
         (Some AudioElement) (with_melody two_notes)) = Throw TypeError.
Proof.
  destruct (play_button_ignores_how_playback_went
              {| hasAudioContext := false; suspended := false; now := lit 0;
                 Math_pow := fun _ _ => NaN |}
              (Some AudioElement) (with_melody two_notes) two_notes eq_refl eq_refl)
    as ((A & _) & _ & B).
  split; [exact A|]. apply B; [discriminate | reflexivity].
Defined.

(** ** Two more edge cases *)

Lemma rnd_mul_zero (x c : Q) : c == 0 -> rnd (x * c) = 0.
Proof.
  intros E. apply (rnd_eq_Z _ 0).
  - rewrite E. ring.
  - vm_compute. discriminate.
Qed.

Lemma quarter_steps (t : Q) (k : Z) :
  (0 <= k < 2 ^ 53)%Z -> t == inject_Z k * (1 # 4) ->
  rnd (t + (1 # 4)) == inject_Z (k + 1) * (1 # 4).
Proof.
  intros Hk Et.
  assert (E : t + (1 # 4) == inject_Z (k + 1) * 2 ^ (-2)).
  { rewrite Et, inject_Z_plus. change (2 ^ (-2)) with (/ (2 * 2)). field. }
  rewrite (rnd_comp _ _ E), rnd_exact by lia.
  change (2 ^ (-2)) with (/ (2 * 2)). field.
Qed.

Lemma loop_metronomic (n : nat) (scale : value (list number)) (s : Settings)
    (c r : Q) (rand : nat -> Q) (st st' : LoopState) (B : Z) :
  c == 0 -> rhythmVariety s = Num r -> (B < 2 ^ 53)%Z ->
  ((Z.of_nat (List.length (notes st)) <= B)%Z ->
   metronomic (notes st) /\
   exists t, currentTime st = Num t /\ t == inject_Z (Z.of_nat (List.length (notes st))) * (1 # 4)) ->
  Part000.loop n scale (Own s) (Num c) rand st = Normal st' ->
  (Z.of_nat (List.length (notes st')) <= B)%Z ->
  metronomic (notes st') /\
  exists t, currentTime st' = Num t /\ t == inject_Z (Z.of_nat (List.length (notes st'))) * (1 # 4).
Proof.
  intros Ec Er HB H0 L.
  apply (loop_invariant
           (fun x => (Z.of_nat (List.length (notes x)) <= B)%Z ->
                     metronomic (notes x) /\
                     exists t, currentTime x = Num t /\
                               t == inject_Z (Z.of_nat (List.length (notes x))) * (1 # 4))
           scale (Own s) (Num c) rand) with (n := n) (st := st); [|exact H0|exact L].
  intros x x' Hx E.
  destruct (iteration_inv _ _ _ _ _ _ E)
    as (l & jr & rv & nt & _ & _ & Hrv & Hn & Hct & _ & _ & Htime & Hvel & Hdur & _).
  cbn [field] in Hrv. injection Hrv as <-.
  rewrite Hn, length_app. cbn [List.length]. intros Hlen.
  destruct Hx as [M (t & Et & Ht)]; [lia|].
  assert (V : Note.velocity nt = Num 60).
  { rewrite Hvel. unfold Math_random, lit. cbn [mul add Math_floor].
    rewrite (rnd_mul_zero _ c Ec). vm_compute. reflexivity. }
  assert (D : Note.duration nt = Num (1 # 4)).
  { rewrite Hdur. cbn [ToNumber]. rewrite Er. unfold Math_random, lit. cbn [sub mul add].
    rewrite (rnd_mul_zero _ c Ec). vm_compute. reflexivity. }
  split.
  - intros i a Hi.
    destruct (Nat.lt_ge_cases i (List.length (notes x))) as [Lt|Ge].
    + rewrite nth_error_app1 in Hi by exact Lt. apply (M i a Hi).
    + rewrite nth_error_app2 in Hi by exact Ge.
      destruct (i - List.length (notes x))%nat as [|j] eqn:Ej.
      * cbn [nth_error] in Hi. injection Hi as <-.
        split; [exact V|]. split; [exact D|].
        exists t. rewrite Htime. split; [exact Et|].
        assert (i = List.length (notes x)) by lia. subst i. exact Ht.
      * destruct j; discriminate Hi.
  - rewrite Hct, Et, D. cbn [add]. eexists. split; [reflexivity|].
    rewrite (quarter_steps t (Z.of_nat (List.length (notes x)))); [|lia|exact Ht].
    replace (Z.of_nat (List.length (notes x) + 1)) with (Z.of_nat (List.length (notes x)) + 1)%Z
      by lia.
    reflexivity.
Qed.

(** With a creativity of zero and a genre that is a plain tag, whatever
    the draws: every note of a returned melody has the velocity 60 and
    the duration 0.25, and note [i] starts at [i * 0.25] exactly, so each
    bar of four notes lasts one unit of time.  Both revisions. *)
Theorem zero_creativity_is_metronomic (p : GenerationParams.t) (rand : nat -> Q)
    (m : Melody.t) (i : nat) (a : Note.t) :
  GenerationParams.creativity p == 0 ->
  plain_tag (GenerationParams.genre p) ->
  (GenerationParams.duration p * 4 < 2 ^ 53)%Z ->
  outcome (Part000.generateMelody p rand) = Normal m \/
  outcome (Part001.generateMelody p rand) = Normal m ->
  nth_error (Melody.notes m) i = Some a ->
  Note.velocity a = Num 60 /\
  Note.duration a = Num (1 # 4) /\
  exists t, Note.time a = Num t /\ t == inject_Z (Z.of_nat i) * (1 # 4).
Proof.
  intros Ec Hg HB Ho Ha.
  assert (O : outcome (Part000.generateMelody p rand) = Normal m).
  { destruct Ho as [O|O]; [exact O|]. rewrite generateMelody_agree in O. exact O. }
  clear Ho. destruct (generate_inv p rand m O) as (lp & st & L & ->).
  cbn [melody_of Melody.notes] in Ha.
  destruct (resolved_settings_plain _ Hg) as (s & Es & _ & (r & Er)).
  rewrite Es in L.
  pose proof (loop_length _ _ _ _ _ _ _ L) as Len. cbn [initial notes List.length] in Len.
  destruct (loop_metronomic (Z.to_nat (GenerationParams.duration p * 4))
              (resolved_scale (GenerationParams.key p)) s
              (GenerationParams.creativity p) r rand (initial lp) st
              (Z.max 0 (GenerationParams.duration p * 4)) Ec Er) as [M _]; [lia| |exact L|lia|].
  - intros _. split.
    + intros j b Hj. destruct j; discriminate Hj.
    + exists (rnd 0). split; [reflexivity|]. vm_compute. reflexivity.
  - apply (M i a Ha).
Qed.

Lemma zero_creativity_witness :
  exists (m : Melody.t) (a : Note.t),
    outcome (Part000.generateMelody (example_params "jazz" 0 "G" 1) almost_one) = Normal m /\
    nth_error (Melody.notes m) 3 = Some a /\
    Note.velocity a = Num 60 /\
    Note.duration a = Num (1 # 4) /\
    exists t, Note.time a = Num t /\ t == 3 # 4.
Proof.
  assert (E : exists m,
             outcome (Part000.generateMelody (example_params "jazz" 0 "G" 1) almost_one)
               = Normal m /\ exists a, nth_error (Melody.notes m) 3 = Some a).
  { vm_compute. eexists. split; [reflexivity|]. eexists. reflexivity. }
  destruct E as (m & O & a & Ha). exists m, a.
  split; [exact O|]. split; [exact Ha|].
  apply (zero_creativity_is_metronomic (example_params "jazz" 0 "G" 1) almost_one m 3 a).
  - reflexivity.
  - reflexivity.
  - reflexivity.
  - left. exact O.
  - exact Ha.
Defined.

(** The bytes of [createSimpleMIDI], for every melody and in both
    revisions, as the two chunks of a MIDI file: the header chunk
    [MThd] announces six bytes of data and holds six; the track chunk
    [MTrk] announces 32 bytes and holds four, the end-of-track event
    alone, so the file carries no note. *)
Theorem midi_stub_announces_more_than_it_holds (melody : Melody.t) :
  exists header track : list Byte.byte,
    Part000.createSimpleMIDI melody = Normal (header ++ track) /\
    Part001.createSimpleMIDI melody = Normal (header ++ track) /\
    chunk_tag header = [Byte.x4d; Byte.x54; Byte.x68; Byte.x64] /\
    chunk_length header = 6%N /\
    N.of_nat (List.length (chunk_data header)) = 6%N /\
    chunk_tag track = [Byte.x4d; Byte.x54; Byte.x72; Byte.x6b] /\
    chunk_length track = 32%N /\
    chunk_data track = [Byte.x00; Byte.xff; Byte.x2f; Byte.x00] /\
    N.of_nat (List.length (chunk_data track)) = 4%N.
Proof.
  do 2 eexists. split; [|split].
  - vm_compute.
    change (Normal [Byte.x4d; Byte.x54; Byte.x68; Byte.x64; Byte.x00; Byte.x00; Byte.x00;
                    Byte.x06; Byte.x00; Byte.x00; Byte.x00; Byte.x01; Byte.x00; Byte.x60;
                    Byte.x4d; Byte.x54; Byte.x72; Byte.x6b; Byte.x00; Byte.x00; Byte.x00;
                    Byte.x20; Byte.x00; Byte.xff; Byte.x2f; Byte.x00])
      with (Normal ([Byte.x4d; Byte.x54; Byte.x68; Byte.x64; Byte.x00; Byte.x00; Byte.x00;
                     Byte.x06; Byte.x00; Byte.x00; Byte.x00; Byte.x01; Byte.x00; Byte.x60] ++
                    [Byte.x4d; Byte.x54; Byte.x72; Byte.x6b; Byte.x00; Byte.x00; Byte.x00;
                     Byte.x20; Byte.x00; Byte.xff; Byte.x2f; Byte.x00])).
    reflexivity.
  - reflexivity.
  - repeat split.
Qed.
